(** * icarogw.catalog: completeness-corrected galaxy density interpolant

    A shallow embedding of [src/icarogw/catalog.py] and the properties of its
    magnitude-threshold estimator, redshift-grid builder, checkpointed
    interpolant build and density query.

    Numbers are IEEE-754 binary64 values ([spec_float] with precision 53 and
    maximal exponent 1024), with NaN, the infinities and signed zeros; the
    arithmetic is the correctly rounded one of the standard library's
    [SpecFloat].  Arrays are lists.  The HDF5 file is a record of groups with
    attributes and named datasets; every write to it is one step of a run, so
    that a run can be cut after any number of writes. *)

From Stdlib Require Import ZArith List String Bool Lia.
From Stdlib Require Import Floats.SpecFloat.
From stdpp Require Import base option list sorting gmap strings pretty.

Local Open Scope string_scope.
Local Open Scope Z_scope.

(** ** Binary64 arithmetic *)

Module F64.

Definition prec : Z := 53.
Definition emax : Z := 1024.

Definition add : spec_float -> spec_float -> spec_float := SFadd prec emax.
Definition sub : spec_float -> spec_float -> spec_float := SFsub prec emax.
Definition mul : spec_float -> spec_float -> spec_float := SFmul prec emax.
Definition div : spec_float -> spec_float -> spec_float := SFdiv prec emax.

Definition ltb : spec_float -> spec_float -> bool := SFltb.
Definition leb : spec_float -> spec_float -> bool := SFleb.
Definition eqb : spec_float -> spec_float -> bool := SFeqb.
(** Python's [x >= y] and [x > y]. *)
Definition geb (x y : spec_float) : bool := SFleb y x.
Definition gtb (x y : spec_float) : bool := SFltb y x.

Definition is_nan (x : spec_float) : bool :=
  match x with S754_nan => true | _ => false end.

Definition is_finite (x : spec_float) : bool :=
  match x with S754_zero _ | S754_finite _ _ _ => true | _ => false end.

Definition of_Z (n : Z) : spec_float := binary_normalize prec emax n 0 false.

Definition zero : spec_float := S754_zero false.
Definition one : spec_float := Eval cbv in of_Z 1.
Definition inf : spec_float := S754_infinity false.
Definition neg_inf : spec_float := S754_infinity true.
Definition nan : spec_float := S754_nan.

(** The literal [1e-6]: the binary64 value nearest to 10^-6. *)
Definition lit_1em6 : spec_float := Eval cbv in div (of_Z 1) (of_Z 1000000).
(** [jnp.pi] = 3.141592653589793. *)
Definition pi : spec_float := S754_finite false 7074237752028440 (-51).
(** [0.5] and [-0.5]. *)
Definition half : spec_float := Eval cbv in div (of_Z 1) (of_Z 2).
Definition neg_half : spec_float := Eval cbv in SFopp half.

(** A Python [bool] used as a factor. *)
Definition of_bool (b : bool) : spec_float := if b then one else zero.

(** Storing a binary64 value into a [float32] or a [float16] array. *)
Definition to_float32 (x : spec_float) : spec_float :=
  match x with
  | S754_finite s m e => binary_round 24 128 s m e
  | _ => x
  end.
Definition to_float16 (x : spec_float) : spec_float :=
  match x with
  | S754_finite s m e => binary_round 11 16 s m e
  | _ => x
  end.

End F64.

Abbreviation float := spec_float.

Declare Scope f64_scope.
Delimit Scope f64_scope with f64.
Infix "+" := F64.add : f64_scope.
Infix "-" := F64.sub : f64_scope.
Infix "*" := F64.mul : f64_scope.
Infix "/" := F64.div : f64_scope.
Infix "<=?" := F64.leb : f64_scope.
Infix "<?" := F64.ltb : f64_scope.
Infix ">=?" := F64.geb : f64_scope.
Infix ">?" := F64.gtb : f64_scope.
Infix "==?" := F64.eqb (at level 70) : f64_scope.

(** [LOWERL = onp.nan_to_num(-onp.inf)]: the most negative finite binary64. *)
Definition LOWERL : float := Eval cbv in SFopp (SFmax_float F64.prec F64.emax).

(** ** Exceptions and results *)

Inductive exn : Type :=
| ValueError (msg : string)
| NameError (name : string)
| UnboundLocalError (name : string)
| KeyError (key : string)
| TypeError (msg : string).

Inductive res (A : Type) : Type :=
| Ok (a : A)
| Raise (e : exn).
Arguments Ok {A} a.
Arguments Raise {A} e.

Definition res_bind {A B : Type} (r : res A) (k : A -> res B) : res B :=
  match r with
  | Ok a => k a
  | Raise e => Raise e
  end.

Notation "'let*' x ':=' r 'in' k" := (res_bind r (fun x => k))
  (at level 10, x pattern, r at level 100, k at level 200).

(** ** The numpy functions the module calls *)

Module Np.

(** [onp.max([a, b])]: the reduction keeps the accumulator [a] when
    [a >= b] or [a] is NaN, so that a NaN on either side is returned. *)
Definition max2 (a b : float) : float :=
  if (a >=? b)%f64 || F64.is_nan a then a else b.

(** [onp.min([a, b])]. *)
Definition min2 (a b : float) : float :=
  if (a <=? b)%f64 || F64.is_nan a then a else b.

Definition zeros_like (z : list float) : list float :=
  map (fun _ => F64.zero) z.

(** [onp.linspace(start, stop, num)] for [num >= 0] samples, with the
    end point included. *)
Definition linspace (start stop : float) (num : nat) : list float :=
  let div := (Z.of_nat num - 1)%Z in
  let delta := (stop - start)%f64 in
  let y := map (fun i => F64.of_Z (Z.of_nat i)) (seq 0 num) in
  let y :=
    if (0 <? div)%Z then
      let step := (delta / F64.of_Z div)%f64 in
      if (step ==? F64.zero)%f64
      then map (fun v => (v / F64.of_Z div * delta)%f64) y
      else map (fun v => (v * step)%f64) y
    else map (fun v => (v * delta)%f64) y in
  let y := map (fun v => (v + start)%f64) y in
  if (1 <? Z.of_nat num)%Z then take (num - 1) y ++ [stop] else y.

(** The order of [onp.sort]: NaN sorts after every number. *)
Definition lt (x y : float) : bool :=
  (x <? y)%f64 || (F64.is_nan y && negb (F64.is_nan x)).

Fixpoint insert_sorted (x : float) (l : list float) : list float :=
  match l with
  | [] => [x]
  | y :: l' => if lt y x then y :: insert_sorted x l' else x :: l
  end.

(** [onp.sort] *)
Definition sort (l : list float) : list float :=
  foldr insert_sorted [] l.

(** [onp.diff] *)
Definition diff (l : list float) : list float :=
  zip_with (fun a b => (b - a)%f64) l (tail l).

(** [onp.where(mask)[0]]: the positions where the mask holds. *)
Fixpoint where_from (i : nat) (mask : list bool) : list nat :=
match mask with
| [] => []
| b :: mask' =>
    if b then i :: where_from (S i) mask' else where_from (S i) mask'
end.

Definition where_ (mask : list bool) : list nat := where_from 0 mask.

(** [onp.arange(start, stop, 2)] for array positions: the
    ceiling of [(stop - start) / 2] values [start], [start + 2], ... *)
Definition arange2 (start stop : nat) : list nat :=
map (fun k => (start + 2 * k)%nat) (seq 0 ((stop - start + 1) / 2)).

(** Fancy indexing [a[idx]] with in-range positions. *)
Definition index {A : Type} (a : list A) (idx : list nat) : list A :=
  omap (fun i => a !! i) idx.

(** [onp.delete(a, idx)]: the entries whose position is not in [idx]. *)
Fixpoint delete_from (i : nat) (a : list float) (idx : list nat)
  : list float :=
match a with
| [] => []
| x :: a' =>
    if bool_decide (i ∈ idx) then delete_from (S i) a' idx
    else x :: delete_from (S i) a' idx
end.

Definition delete (a : list float) (idx : list nat) : list float :=
delete_from 0 a idx.

(** Two array entries that [onp.unique] merges: equal numbers, or two NaN. *)
Definition same (x y : float) : bool :=
  (x ==? y)%f64 || (F64.is_nan x && F64.is_nan y).

(** The mask [aux[1:] != aux[:-1]] of [onp.unique]: an entry is kept when it
    differs from the entry before it. *)
Fixpoint keep_changes (prev : float) (l : list float) : list float :=
  match l with
  | [] => []
  | x :: l' =>
      if same prev x then keep_changes x l' else x :: keep_changes x l'
  end.

Definition dedup_sorted (l : list float) : list float :=
  match l with
  | [] => []
  | x :: l' => x :: keep_changes x l'
  end.

(** [onp.unique]: sort, then keep one entry of each run of equal ones. *)
Definition unique (l : list float) : list float :=
  dedup_sorted (sort l).

End Np.

(** ** The collaborators of the module

    The cosmology class, the luminosity function, the k-correction, the sky
    pixelisation and the transcendental functions are not part of this file of
    the repository: they are taken as they are given.  Functions that the code
    applies to arrays act entry by entry. *)

Record Cosmology : Type := {
  z2dl : float -> float;
  dVc_by_dzdOmega_at_z : float -> float;
  z2Vc : float -> float;
  cosmo_zmax : float
}.

Class MathLib : Type := {
  np_exp : float -> float;
  np_log : float -> float;
  np_power : float -> float -> float;
  (** [trapz(y, x)] *)
  trapz : list float -> list float -> float;
  (** [onp.percentile(a, q)] *)
  np_percentile : list float -> float -> float
}.

Section EMLikelihood.

Context `{ML : MathLib}.

Local Open Scope f64_scope.

Definition five : float := Eval cbv in F64.of_Z 5.
Definition two : float := Eval cbv in F64.of_Z 2.
Definition four : float := Eval cbv in F64.of_Z 4.

(** [user_normal(x, mu, sigma)] at one entry [x]. *)
Definition user_normal (x mu sigma : float) : float :=
  np_power (two * F64.pi * np_power sigma two) F64.neg_half
  * np_exp (F64.neg_half * np_power ((x - mu) / sigma) two).

(** The lower integration limit of line 54. *)
Definition EM_zvalmin (zobs sigmaz Numsigma : float) : float :=
  Np.max2 F64.lit_1em6 (zobs - Numsigma * sigmaz).

(** The normalisation integral of the mode ['gaussian'], lines 72-73. *)
Definition gaussian_normfact (zobs sigmaz : float) (cosmology : Cosmology)
    (zvalmin zvalmax : float) : float :=
  let zproxy := Np.linspace zvalmin zvalmax 5000 in
  trapz (map (fun zp => dVc_by_dzdOmega_at_z cosmology zp
                        * user_normal zp zobs sigmaz) zproxy) zproxy.

(** The normalisation integral of the mode ['gaussian_nocom'], lines 92-93. *)
Definition gaussian_nocom_normfact (zobs sigmaz : float)
    (zvalmin zvalmax : float) : float :=
  let zproxy := Np.linspace zvalmin zvalmax 5000 in
  trapz (map (fun zp => user_normal zp zobs sigmaz) zproxy) zproxy.

(** The two tests on [normfact] and the division that follows them. *)
Definition normalise (prior_eval : list float) (normfact : float)
  : res (list float) :=
  if normfact ==? F64.zero then Raise (ValueError "Normalization failed")
  else if F64.is_nan normfact then Raise (ValueError "Normalization failed")
  else Ok (map (fun p => p / normfact) prior_eval).

Definition EM_likelihood_prior_differential_volume
    (z : list float) (zobs sigmaz : float) (cosmology : Cosmology)
    (Numsigma : float) (ptype : string) : res (list float) :=
  let zvalmin := EM_zvalmin zobs sigmaz Numsigma in
  if String.eqb ptype "uniform" then
    let zvalmax := zobs + Numsigma * sigmaz in
    if zvalmax <=? zvalmin then Ok (Np.zeros_like z)
    else
      Ok (map (fun zi =>
                 four * F64.pi * dVc_by_dzdOmega_at_z cosmology zi
                 * F64.of_bool ((zi >=? zobs - Numsigma * sigmaz)
                                && (zi <=? zobs + Numsigma * sigmaz))
                 / (z2Vc cosmology zvalmax - z2Vc cosmology zvalmin)) z)
  else if String.eqb ptype "gaussian" then
    let zvalmax := zobs + five * sigmaz in
    if zvalmax <=? zvalmin then Ok (Np.zeros_like z)
    else
      normalise
        (map (fun zi => dVc_by_dzdOmega_at_z cosmology zi
                        * user_normal zi zobs sigmaz) z)
        (gaussian_normfact zobs sigmaz cosmology zvalmin zvalmax)
  else if String.eqb ptype "gaussian_nocom" then
    let zvalmax := zobs + five * sigmaz in
    if zvalmax <=? zvalmin then Ok (Np.zeros_like z)
    else
      normalise
        (map (fun zi => user_normal zi zobs sigmaz) z)
        (gaussian_nocom_normfact zobs sigmaz zvalmin zvalmax)
  else
    (* [prior_eval] was assigned in no branch *)
    Raise (UnboundLocalError "prior_eval").

End EMLikelihood.

(** ** The HDF5 file

    The datasets ['ra'], ['dec'], ['z'], ['sigmaz'], ['m'] and ['sky_indices']
    of the group ['catalog'] have one entry per galaxy: they are kept as one
    list of rows.  The groups ['catalog/mthr_map'] and
    ['catalog/dNgal_dzdOm_interpolant'] hold attributes and named datasets. *)

Record galaxy : Type := {
  g_ra : float;
  g_dec : float;
  g_z : float;
  g_sigmaz : float;
  g_m : float;
  g_sky_indices : Z
}.

Inductive attr : Type :=
| AInt (n : Z)
| AFloat (x : float)
| AStr (s : string)
| ANone.

Inductive ndarray : Type :=
| FloatArr (l : list float)
| IntArr (l : list Z).

Record group : Type := {
  attrs : gmap string attr;
  dsets : gmap string ndarray
}.

Definition empty_group : group := {| attrs := ∅; dsets := ∅ |}.

Record h5file : Type := {
  band : string;
  nside : Z;
  npixels : Z;
  dOmega_sterad : float;
  Ngal : Z;
  galaxies : list galaxy;
  groups : gmap string group
}.

Definition set_groups (f : h5file) (gs : gmap string group) : h5file :=
{| band := band f; nside := nside f; npixels := npixels f;
   dOmega_sterad := dOmega_sterad f; Ngal := Ngal f;
   galaxies := galaxies f; groups := gs |}.

Definition set_galaxies (f : h5file) (gals : list galaxy) : h5file :=
{| band := band f; nside := nside f; npixels := npixels f;
   dOmega_sterad := dOmega_sterad f; Ngal := Ngal f;
   galaxies := gals; groups := groups f |}.

Definition set_Ngal (f : h5file) (n : Z) : h5file :=
{| band := band f; nside := nside f; npixels := npixels f;
   dOmega_sterad := dOmega_sterad f; Ngal := n;
   galaxies := galaxies f; groups := groups f |}.

Definition mthr_group : string := "mthr_map".
Definition interp_group : string := "dNgal_dzdOm_interpolant".

(** [a[i]] on a numpy array: a negative position counts from the end. *)
Definition np_getitem {A : Type} (a : list A) (i : Z) : res A :=
let n := Z.of_nat (length a) in
let j := if i <? 0 then i + n else i in
if (0 <=? j) && (j <? n) then
  match a !! Z.to_nat j with
  | Some x => Ok x
  | None => Raise (KeyError "index out of range")
  end
else Raise (KeyError "index out of range").

Fixpoint res_map {A B : Type} (k : A -> res B) (l : list A) : res (list B) :=
match l with
| [] => Ok []
| x :: l' => let* y := k x in let* ys := res_map k l' in Ok (y :: ys)
end.

(** The thresholds of the galaxies' pixels,
    [mthgroup['mthr_sky'][:][catalog['sky_indices'][:]]]. *)
Definition castmthr (mthr_sky : list float) (gals : list galaxy)
  : res (list float) :=
res_map (fun g => np_getitem mthr_sky (g_sky_indices g)) gals.

(** [tokeep = where(m <= castmthr)], applied to every row. *)
Definition keep_galaxies (gals : list galaxy) (thr : list float)
  : list galaxy :=
omap (fun '(g, t) => if (g_m g <=? t)%f64 then Some g else None)
     (zip gals thr).

(** One write to the file (or the exception that ends the run between two
    writes). *)
Inductive step : Type :=
| CreateGroup (g : string)
| SetAttr (g key : string) (v : attr)
| CreateDataset (g name : string) (data : ndarray)
| SetItem (g name : string) (i : Z) (v : float)
| FilterCatalog
| SetNgal
| Throw (e : exn)
| CloseFile.

Definition exists_error (what : string) : exn :=
ValueError ("Unable to create " +:+ what +:+ " (name already exists)").

Definition exec_step (s : step) (f : h5file) : res h5file :=
match s with
| CreateGroup g =>
    match groups f !! g with
    | Some _ => Raise (exists_error "group")
    | None => Ok (set_groups f (<[g := empty_group]> (groups f)))
    end
| SetAttr g key v =>
    match groups f !! g with
    | None => Raise (KeyError g)
    | Some gr =>
        Ok (set_groups f
              (<[g := {| attrs := <[key := v]> (attrs gr); dsets := dsets gr |}]>
                 (groups f)))
    end
| CreateDataset g name data =>
    match groups f !! g with
    | None => Raise (KeyError g)
    | Some gr =>
        match dsets gr !! name with
        | Some _ => Raise (exists_error "dataset")
        | None =>
            Ok (set_groups f
                  (<[g := {| attrs := attrs gr;
                             dsets := <[name := data]> (dsets gr) |}]>
                     (groups f)))
        end
    end
| SetItem g name i v =>
    match groups f !! g with
    | None => Raise (KeyError g)
    | Some gr =>
        match dsets gr !! name with
        | Some (FloatArr l) =>
            if (0 <=? i) && (i <? Z.of_nat (length l)) then
              Ok (set_groups f
                    (<[g := {| attrs := attrs gr;
                               dsets := <[name := FloatArr (<[Z.to_nat i := v]> l)]>
                                          (dsets gr) |}]>
                       (groups f)))
            else Raise (KeyError "index out of range")
        | _ => Raise (KeyError name)
        end
    end
| FilterCatalog =>
    match groups f !! mthr_group with
    | None => Raise (KeyError mthr_group)
    | Some gr =>
        match dsets gr !! "mthr_sky" with
        | Some (FloatArr mthr_sky) =>
            let* thr := castmthr mthr_sky (galaxies f) in
            Ok (set_galaxies f (keep_galaxies (galaxies f) thr))
        | _ => Raise (KeyError "mthr_sky")
        end
    end
| SetNgal => Ok (set_Ngal f (Z.of_nat (length (galaxies f))))
| Throw e => Raise e
| CloseFile => Ok f
end.

(** Running the writes of a plan in order; the first exception ends the run
    and leaves the file as the writes before it made it. *)
Fixpoint exec (plan : list step) (f : h5file) : h5file * option exn :=
match plan with
| [] => (f, None)
| s :: plan' =>
    match exec_step s f with
    | Ok f' => exec plan' f'
    | Raise e => (f, Some e)
    end
end.

(** A run that the process ends after [n] steps. *)
Definition exec_interrupted (n : nat) (plan : list step) (f : h5file)
  : h5file * option exn :=
exec (take n plan) f.

(** The checkpoint [group.attrs['sky_checkpoint']] read when a run resumes. *)
Definition read_checkpoint (gr : group) : res Z :=
match attrs gr !! "sky_checkpoint" with
| Some (AInt c) => Ok c
| _ => Raise (KeyError "sky_checkpoint")
end.

(** [onp.arange(start, stop, 1)] *)
Definition arange (start stop : Z) : list Z :=
seqZ start (stop - start).

(** The sky pixelisation, the magnitude conversion, the k-correction and the
    luminosity function, from the modules [conversions] and [cosmology]. *)
Class Collaborators : Type := {
  radec2indeces : float -> float -> Z -> Z;
  indices2radec : Z -> Z -> float * float;
  m2M : float -> float -> float -> float;
  (** [kcorr(band)(z)] *)
  kcorr : string -> float -> float;
  (** [log_powerlaw_absM_rate(epsilon).evaluate(sch_fun, M)], where [sch_fun]
      is [galaxy_MF(band)] built on a cosmology *)
  absM_rate_evaluate : float -> string -> Cosmology -> float -> float;
  (** [sch_fun.background_effective_galaxy_density(Mthr)], for the
      luminosity weight [epsilon] *)
  background_effective_galaxy_density :
    float -> string -> Cosmology -> float -> float
}.

(** ** The magnitude threshold map: [calculate_mthr] *)

Inductive percentile_arg : Type :=
| Percentile (q : float)
| EmptyMap.   (* the string 'empty' *)

Definition attr_of_percentile (p : percentile_arg) : attr :=
match p with
| Percentile q => AFloat q
| EmptyMap => AStr "empty"
end.

(** [mthgroup.attrs['mthr_percentile']] as the second argument of
    [onp.percentile]. *)
Definition percentile_of_attr (a : option attr) : res float :=
match a with
| Some (AFloat q) => Ok q
| Some (AInt n) => Ok (F64.of_Z n)
| Some _ => Raise (TypeError "percentile")
| None => Raise (KeyError "mthr_percentile")
end.

Section Thresholds.

Context `{ML : MathLib} `{CO : Collaborators}.

(** The galaxies of the pixel of resolution [nside_mthr] that holds the
    centre of the catalog pixel [indx]: [where(skypixmthr == bigpix)[0]]. *)
Definition mthr_pixel_galaxies (f : h5file) (nside_mthr : Z) (indx : Z)
  : list nat :=
let skypixmthr :=
  map (fun g => radec2indeces (g_ra g) (g_dec g) nside_mthr) (galaxies f) in
let '(rap, decp) := indices2radec indx (nside f) in
let bigpix := radec2indeces rap decp nside_mthr in
Np.where_ (map (fun p => p =? bigpix) skypixmthr).

(** One turn of the loop of lines 322-330. *)
Definition mthr_pixel_steps (f : h5file) (nside_mthr : Z) (q : res float)
    (indx : Z) : list step :=
SetAttr mthr_group "sky_checkpoint" (AInt indx) ::
match mthr_pixel_galaxies f nside_mthr indx with
| [] => []
| ind =>
    match q with
    | Ok q =>
        [SetItem mthr_group "mthr_sky" indx
           (np_percentile (Np.index (map g_m (galaxies f)) ind) q)]
    | Raise e => [Throw e]
    end
end.

(** Lines 306-316: the group is created, or the run resumes from the
    checkpoint of the group that exists. *)
Definition mthr_open (f : h5file) (mthr_percentile : percentile_arg)
    (nside_mthr : Z) : list step * res float * res Z :=
match groups f !! mthr_group with
| None =>
    ([CreateGroup mthr_group;
      SetAttr mthr_group "mthr_percentile" (attr_of_percentile mthr_percentile);
      SetAttr mthr_group "nside_mthr" (AInt nside_mthr);
      CreateDataset mthr_group "mthr_sky"
        (FloatArr (replicate (Z.to_nat (npixels f)) LOWERL))],
     percentile_of_attr (Some (attr_of_percentile mthr_percentile)),
     Ok 0)
| Some gr =>
    ([], percentile_of_attr (attrs gr !! "mthr_percentile"),
     read_checkpoint gr)
end.

(** The loop over the pixels, lines 320-330. *)
Definition mthr_loop (f : h5file) (nside_mthr : Z) (q : res float)
    (indx_sky : Z) : list step :=
flat_map (mthr_pixel_steps f nside_mthr q) (arange indx_sky (npixels f)).

(** The writes of [calculate_mthr(mthr_percentile, nside_mthr)] on the file
    [f].  The rewriting of the six catalog datasets (lines 335-340) is one
    step. *)
Definition calculate_mthr (f : h5file) (mthr_percentile : percentile_arg)
    (nside_mthr : option Z) : list step :=
let nside_mthr := default (nside f) nside_mthr in
let '(init, q, indx_sky) := mthr_open f mthr_percentile nside_mthr in
init ++
match indx_sky with
| Raise e => [Throw e]
| Ok indx_sky =>
    match mthr_percentile with
    | Percentile _ =>
        mthr_loop f nside_mthr q indx_sky ++ [FilterCatalog; SetNgal]
    | EmptyMap =>
        [SetAttr mthr_group "sky_checkpoint" (AInt (npixels f - 1))]
    end
end.

End Thresholds.

(** ** The redshift grid, lines 460-496 of [calc_dN_by_dzdOmega_interpolant] *)

Section Grid.

Local Open Scope f64_scope.

Variable Numsigma zcut : float.

(** The support of a galaxy, [zmin] and [zmax] of lines 468-469. *)
Definition window (g : galaxy) : float * float :=
(Np.max2 (g_z g - Numsigma * g_sigmaz g) F64.lit_1em6,
 Np.min2 (g_z g + Numsigma * g_sigmaz g) zcut).

(** The test of line 461. *)
Definition in_range (g : galaxy) : bool :=
(g_z g - Numsigma * g_sigmaz g <=? zcut)
&& (g_z g + Numsigma * g_sigmaz g >=? F64.lit_1em6).

Definition idx_in_range (gals : list galaxy) : list nat :=
Np.where_ (map in_range gals).

(** Lines 465-474: the widths, stored in a [float32] array. *)
Definition interpolation_width (cosmo_ref : Cosmology) (sel : list galaxy)
  : res (list float) :=
res_map (fun g =>
           let '(zmin, zmax) := window g in
           if zmax >=? cosmo_zmax cosmo_ref
           then Raise (NameError "minz")     (* [print(minz,maxz)] *)
           else Ok (F64.to_float32 (zmax - zmin))) sel.

Fixpoint insert_width (x : float * nat) (l : list (float * nat))
  : list (float * nat) :=
match l with
| [] => [x]
| y :: l' => if Np.lt (fst y) (fst x) then y :: insert_width x l' else x :: l
end.

(** [onp.argsort]; entries of equal width keep their order. *)
Definition argsort (w : list float) : list nat :=
map snd (foldr insert_width [] (imap (fun i x => (x, i)) w)).

(** Lines 489-493: the odd positions whose neighbours at even positions
    are closer than [delta]. *)
Definition to_eliminate (z_grid : list float) (delta : float) : list nat :=
let even_in := Np.arange2 0 (length z_grid) in
let odd_in := Np.arange2 1 (length z_grid) in
let z_even := Np.index z_grid even_in in
let diffv := Np.diff z_even in
Np.index odd_in (Np.where_ (map (fun d => d <? delta) diffv)).

(** Line 494: these positions are removed. *)
Definition prune (z_grid : list float) (delta : float) : list float :=
Np.delete z_grid (to_eliminate z_grid delta).

(** One turn of the loop of lines 483-494. *)
Definition merge_galaxy (Nintegration : nat) (z_grid : list float)
    (g : galaxy) : list float :=
let '(zmin, zmax) := window g in
let zinterpolator := Np.linspace zmin zmax Nintegration in
let delta := (zmax - zmin) / F64.of_Z (Z.of_nat Nintegration) in
prune (Np.sort (z_grid ++ zinterpolator)) delta.

(** The grid before [onp.unique], line 480 and the loop after it. *)
Definition merged_grid (Nintegration : nat) (ordered : list galaxy)
  : list float :=
foldl (merge_galaxy Nintegration)
      (Np.linspace F64.lit_1em6 zcut Nintegration) ordered.

(** Lines 460-496: the positions of the galaxies in range and the grid. *)
Definition build_z_grid (cosmo_ref : Cosmology) (Nintegration : Z)
    (gals : list galaxy) : res (list nat * list float) :=
let idx := idx_in_range gals in
match idx with
| [] => Raise (NameError "maxz")   (* ['...{:f}'.format(maxz)] *)
| _ =>
    let sel := Np.index gals idx in
    let* widths := interpolation_width cosmo_ref sel in
    let idx_sorted := reverse (argsort widths) in
    if (Nintegration <? 0)%Z then
      Raise (ValueError ("Number of samples, " +:+ pretty Nintegration
                         +:+ ", must be non-negative."))
    else
      Ok (idx, Np.unique (merged_grid (Z.to_nat Nintegration)
                                      (Np.index sel idx_sorted)))
end.

(** A value of the span [1e-6, zcut]. *)
Definition in_span (p : float) : bool :=
(F64.lit_1em6 <=? p) && (p <=? zcut).

(** The samples of the span and of the window of every galaxy in range lie
    in the span. *)
Definition samples_in_span (Nintegration : nat) (gals : list galaxy) : bool :=
forallb in_span (Np.linspace F64.lit_1em6 zcut Nintegration)
&& forallb (fun g =>
              negb (in_range g)
              || forallb in_span
                   (Np.linspace (fst (window g)) (snd (window g))
                                Nintegration)) gals.

(** The consecutive points of the grid that both lie in the window of [g]
    are no further apart than the width of the window divided by the base
    resolution. *)
Definition window_spacing_ok (Nintegration : Z) (grid : list float)
    (g : galaxy) : bool :=
let '(zmin, zmax) := window g in
forallb (fun '(a, b) =>
           negb ((zmin <=? a) && (b <=? zmax))
           || (b - a <=? (zmax - zmin) / F64.of_Z Nintegration))
        (zip grid (tail grid)).

End Grid.


(** ** The density interpolant: [calc_dN_by_dzdOmega_interpolant] *)

Section Interpolant.

Context `{ML : MathLib} `{CO : Collaborators}.

Local Open Scope f64_scope.

(** The term that one galaxy adds to [interpo], lines 522-525. *)
Definition galaxy_term (f : h5file) (cosmo_ref : Cosmology) (epsilon : float)
    (Numsigma : float) (ptype : string) (z_grid : list float) (g : galaxy)
  : res (list float) :=
let Mv :=
  map (fun zi => m2M (g_m g) (z2dl cosmo_ref zi) (kcorr (band f) zi)) z_grid in
let rate := map (absM_rate_evaluate epsilon (band f) cosmo_ref) Mv in
let* em := EM_likelihood_prior_differential_volume
             z_grid (g_z g) (g_sigmaz g) cosmo_ref Numsigma ptype in
Ok (zip_with (fun r e => r * e / dOmega_sterad f) rate em).

(** [interpo = 0.] followed by [interpo += ...] for every galaxy of the
    pixel; the scalar [0.] takes the length of the grid. *)
Fixpoint accumulate (f : h5file) (cosmo_ref : Cosmology) (epsilon : float)
    (Numsigma : float) (ptype : string) (z_grid : list float)
    (interpo : list float) (gals : list galaxy) : res (list float) :=
match gals with
| [] => Ok interpo
| g :: gals' =>
    let* t := galaxy_term f cosmo_ref epsilon Numsigma ptype z_grid g in
    accumulate f cosmo_ref epsilon Numsigma ptype z_grid
               (zip_with F64.add interpo t) gals'
end.

(** [interpo[interpo==0.]=onp.nan] *)
Definition zero_to_nan (interpo : list float) : list float :=
map (fun s => if s ==? F64.zero then F64.nan else s) interpo.

(** [onp.float16(onp.log(interpo))] *)
Definition log_float16 (interpo : list float) : list float :=
map (fun s => F64.to_float16 (np_log s)) interpo.

(** The galaxies in range whose pixel is [i]: [where(cpind==i)[0]] applied
    to the rows in range. *)
Definition pixel_galaxies (sel : list galaxy) (i : Z) : list galaxy :=
Np.index sel (Np.where_ (map (fun g => (g_sky_indices g =? i)%Z) sel)).

(** The column of the pixel [i], lines 510-528. *)
Definition pixel_column (f : h5file) (cosmo_ref : Cosmology)
    (epsilon Numsigma : float) (ptype : string) (sel : list galaxy)
    (z_grid : list float) (i : Z) : res (list float) :=
match pixel_galaxies sel i with
| [] => Ok (map F64.to_float16 (map (fun _ => F64.nan) z_grid))
| gals =>
    let* interpo :=
      accumulate f cosmo_ref epsilon Numsigma ptype z_grid
                 (Np.zeros_like z_grid) gals in
    Ok (log_float16 (zero_to_nan interpo))
end.

Definition vals_pixel (i : Z) : string := "vals_pixel_" +:+ pretty i.

(** One turn of the loop of lines 508-529. *)
Definition interp_pixel_steps (f : h5file) (cosmo_ref : Cosmology)
    (epsilon Numsigma : float) (ptype : string) (sel : list galaxy)
    (z_grid : list float) (i : Z) : list step :=
SetAttr interp_group "sky_checkpoint" (AInt i) ::
match pixel_column f cosmo_ref epsilon Numsigma ptype sel z_grid i with
| Ok col => [CreateDataset interp_group (vals_pixel i) (FloatArr col)]
| Raise e => [Throw e]
end.

Definition interp_loop (f : h5file) (cosmo_ref : Cosmology)
    (epsilon Numsigma : float) (ptype : string) (sel : list galaxy)
    (z_grid : list float) (indx_sky : Z) : list step :=
flat_map (interp_pixel_steps f cosmo_ref epsilon Numsigma ptype sel z_grid)
         (arange indx_sky (npixels f)).

Definition attr_of_zcut (zcut : option float) : attr :=
match zcut with
| Some z => AFloat z
| None => ANone
end.

(** Lines 439-450: the group is created, or the run resumes from the
    checkpoint of the group that exists. *)
Definition interp_open (f : h5file) (epsilon : float) (Nintegration : Z)
    (Numsigma : float) (zcut : option float) (ptype : string)
  : list step * res Z :=
match groups f !! interp_group with
| None =>
    ([CreateGroup interp_group;
      SetAttr interp_group "epsilon" (AFloat epsilon);
      SetAttr interp_group "ptype" (AStr ptype);
      SetAttr interp_group "Nintegration" (AInt Nintegration);
      SetAttr interp_group "Numsigma" (AFloat Numsigma);
      SetAttr interp_group "zcut" (attr_of_zcut zcut)],
     Ok 0%Z)
| Some gr => ([], read_checkpoint gr)
end.

(** Line 435: the gaussian modes use five sigma. *)
Definition effective_Numsigma (Numsigma : float) (ptype : string) : float :=
if String.eqb ptype "gaussian" || String.eqb ptype "gaussian_nocom"
then five else Numsigma.

(** The writes of [calc_dN_by_dzdOmega_interpolant] on the file [f]. *)
Definition calc_dN_by_dzdOmega_interpolant (f : h5file)
    (cosmo_ref : Cosmology) (epsilon : float) (Nintegration : Z)
    (Numsigma : float) (zcut : option float) (ptype : string) : list step :=
let Numsigma := effective_Numsigma Numsigma ptype in
let '(init, indx_sky) :=
  interp_open f epsilon Nintegration Numsigma zcut ptype in
init ++
match indx_sky with
| Raise e => [Throw e]
| Ok indx_sky =>
    let zcut := default (cosmo_zmax cosmo_ref) zcut in
    match build_z_grid Numsigma zcut cosmo_ref Nintegration (galaxies f) with
    | Raise e => [Throw e]
    | Ok (idx, z_grid) =>
        (if (indx_sky =? 0)%Z then
           [CreateDataset interp_group "z_grid" (FloatArr z_grid);
            CreateDataset interp_group "pixel_grid"
              (IntArr (arange 0 (npixels f)))]
         else [])
        ++ interp_loop f cosmo_ref epsilon Numsigma ptype
                       (Np.index (galaxies f) idx) z_grid indx_sky
        ++ [CloseFile]
    end
end.

End Interpolant.

(** ** The query: [effective_galaxy_number_interpolant] *)

(** An array with its shape and its entries in row-major order. *)
Record shaped (A : Type) : Type := {
  shape : list nat;
  flat : list A
}.
Arguments shape {A} _.
Arguments flat {A} _.

Definition np_reshape {A : Type} (originshape : list nat) (l : list A)
  : shaped A :=
{| shape := originshape; flat := l |}.

(** [self.mthr_map]: the string ['empty'] or the threshold of every pixel. *)
Inductive mthr_state : Type :=
| MthrStr (s : string)
| MthrArr (a : list float).

(** The fields of the object that [load_hdf5] fills and the query reads. *)
Record galaxy_catalog : Type := {
  cat_band : string;
  cat_epsilon : float;
  mthr_map : mthr_state;
  z_grid : list float;
  pixel_grid : list Z;
  (** one row per redshift of the grid, one entry per pixel in each row *)
  dNgal_dzdOm_vals : list (list float);
  dNgal_dzdOm_sky_mean : list float
}.

Module Interp.

Local Open Scope f64_scope.

(** A coordinate outside of the grid of its axis. *)
Definition out_of_bounds (grid : list float) (x : float) : bool :=
match grid with
| [] => true
| g0 :: _ => (x <? g0) || (x >? List.last grid g0)
end.

(** The cell of the axis that holds [x]: the number of grid values below
    [x], less one, kept between [0] and [length grid - 2]. *)
Definition find_index (grid : list float) (x : float) : nat :=
Nat.min (Nat.pred (length (filter (fun g => (g <? x) = true) grid)))
        (length grid - 2).

Definition norm_distance (grid : list float) (i : nat) (x : float) : float :=
(x - nth i grid F64.nan) / (nth (S i) grid F64.nan - nth i grid F64.nan).

Definition value_at (vals : list (list float)) (i j : nat) : float :=
nth j (nth i vals []) F64.nan.

(** Modelled from the spec: [interpn] is imported from [jax_pal], which is
    not in this file.  The per-pixel bilinear interpolation of the stored
    table over (redshift, pixel), with [bounds_error=False] and
    [fill_value=0.]: the fill value outside the range of either axis. *)
Definition interpn (zs ps : list float) (vals : list (list float))
    (fill_value : float) (x : float * float) : float :=
let '(zq, pq) := x in
if out_of_bounds zs zq || out_of_bounds ps pq then fill_value
else
  let i := find_index zs zq in
  let j := find_index ps pq in
  let t := norm_distance zs i zq in
  let u := norm_distance ps j pq in
  F64.zero
  + value_at vals i j * ((F64.one - t) * (F64.one - u))
  + value_at vals i (S j) * ((F64.one - t) * u)
  + value_at vals (S i) j * (t * (F64.one - u))
  + value_at vals (S i) (S j) * (t * u).

(** Modelled from the spec: [jnp.interp(x, xp, fp, left, right)], the
    one-dimensional interpolation of the sky-mean density curve. *)
Definition interp (xp fp : list float) (left right : float) (x : float)
  : float :=
match xp with
| [] => F64.nan
| x0 :: _ =>
    if x <? x0 then left
    else if x >? List.last xp x0 then right
    else
      let i := find_index xp x in
      let t := norm_distance xp i x in
      nth i fp F64.nan + t * (nth (S i) fp F64.nan - nth i fp F64.nan)
end.

End Interp.

Section Query.

Context `{CO : Collaborators}.

Local Open Scope f64_scope.

(** [calc_Mthr(z, radec_indices, cosmology, dl)] on flat arrays. *)
Definition calc_Mthr (mthr : list float) (band : string) (z : list float)
    (radec_indices : list Z) (dl : list float) : res (list float) :=
let* mthr_arrays := res_map (np_getitem mthr) radec_indices in
Ok (zip_with (fun '(m, d) zi => m2M m d (kcorr band zi))
             (zip mthr_arrays dl) z).

(** Line 565: [Mthr_array.at[z>self.z_grid[-1]].set(-jnp.inf)]. *)
Definition clamp_Mthr (zlast : float) (z Mthr_array : list float)
  : list float :=
zip_with (fun zi M => if zi >? zlast then F64.neg_inf else M) z Mthr_array.

(** The absolute-magnitude thresholds that the background term is
    evaluated at, lines 563-565. *)
Definition query_Mthr (self : galaxy_catalog) (mthr : list float)
    (z : list float) (skypos : list Z) (dl : list float) : res (list float) :=
let* Mthr_array := calc_Mthr mthr (cat_band self) z skypos dl in
let* zlast := np_getitem (z_grid self) (-1) in
Ok (clamp_Mthr zlast z Mthr_array).

(** The catalog part, lines 568-572. *)
Definition query_gcpart (self : galaxy_catalog) (z : list float)
    (skypos : list Z) (average : bool) : list float :=
if average then
  map (Interp.interp (z_grid self) (dNgal_dzdOm_sky_mean self)
                     F64.zero F64.zero) z
else
  map (Interp.interpn (z_grid self) (map F64.of_Z (pixel_grid self))
                      (dNgal_dzdOm_vals self) F64.zero)
      (zip z (map F64.of_Z skypos)).

Definition background (self : galaxy_catalog) (cosmology : Cosmology)
    (z Mthr_array : list float) : list float :=
zip_with F64.mul
  (map (background_effective_galaxy_density
          (cat_epsilon self) (cat_band self) cosmology) Mthr_array)
  (map (dVc_by_dzdOmega_at_z cosmology) z).

Definition effective_galaxy_number_interpolant (self : galaxy_catalog)
    (z : shaped float) (skypos : shaped Z) (cosmology : Cosmology)
    (dl : option (shaped float)) (average : bool)
  : res (shaped float * shaped float) :=
let originshape := shape z in
let z := flat z in
let skypos := flat skypos in
let dl := match dl with
          | None => map (z2dl cosmology) z
          | Some dl => flat dl
          end in
match mthr_map self with
| MthrStr _ =>
    Ok (np_reshape originshape (map (fun _ => F64.zero) z),
        np_reshape originshape
          (background self cosmology z
             (map (fun _ => F64.neg_inf * F64.one) z)))
| MthrArr mthr =>
    let* Mthr_array := query_Mthr self mthr z skypos dl in
    let gcpart := query_gcpart self z skypos average in
    let bgpart := background self cosmology z Mthr_array in
    Ok (np_reshape originshape gcpart, np_reshape originshape bgpart)
end.

End Query.

(** ** Notions used in the statements *)

Definition is_zero (x : float) : bool :=
match x with
| S754_zero _ => true
| _ => false
end.

Definition le_rel (x y : float) : Prop := F64.leb x y = true.
Definition lt_rel (x y : float) : Prop := F64.ltb x y = true.
Definition nonnan (x : float) : Prop := F64.is_nan x = false.

Definition zero_or_nan (c : float) : Prop :=
is_zero c = true \/ F64.is_nan c = true.

Definition within_span (zcut p : float) : Prop := in_span zcut p = true.

(** What every grid of the loop of lines 483-494 satisfies. *)
Definition grid_invariant (zcut : float) (S : list float) : Prop :=
Forall (within_span zcut) S /\ F64.lit_1em6 ∈ S /\ zcut ∈ S.

Definition strictly_increasing (l : list float) : Prop :=
Sorted lt_rel l.

(** ** Checkpoints *)

Definition checkpoint_of (gr : group) : option Z :=
match attrs gr !! "sky_checkpoint" with
| Some (AInt c) => Some c
| _ => None
end.

(** The column of the pixel [j] is in the group of the interpolant. *)
Definition has_column (gr : group) (j : Z) : Prop :=
is_Some (dsets gr !! vals_pixel j).

(** The checkpoint of the interpolant points past no pixel whose column is
    missing, and no column beyond the pixel of the checkpoint exists. *)
Definition interp_checkpoint_safe (f : h5file) : Prop :=
forall gr, groups f !! interp_group = Some gr ->
  match checkpoint_of gr with
  | Some c =>
      0 <= c
      /\ (forall j, 0 <= j < c -> has_column gr j)
      /\ (forall j, c < j -> ~ has_column gr j)
  | None => forall j, ~ has_column gr j
  end.

(** An invariant that holds before every step of a plan that runs. *)
Fixpoint safe (I : h5file -> Prop) (plan : list step) (f : h5file) : Prop :=
I f /\
match plan with
| [] => True
| s :: plan' =>
    match exec_step s f with
    | Ok f' => safe I plan' f'
    | Raise _ => True
    end
end.

Section Reachable.

Context `{ML : MathLib} `{CO : Collaborators}.

(** The files that runs of the interpolant build, each cut after any number
    of writes, make of a file without the group of the interpolant. *)
Inductive interp_reachable : h5file -> Prop :=
| interp_reach_fresh f :
    groups f !! interp_group = None -> interp_reachable f
| interp_reach_run f cosmo_ref epsilon Nintegration Numsigma zcut ptype n :
    interp_reachable f ->
    interp_reachable
      (fst (exec_interrupted n
              (calc_dN_by_dzdOmega_interpolant
                 f cosmo_ref epsilon Nintegration Numsigma zcut ptype) f)).

(** The threshold that the estimation writes for the pixel [j] of the
    catalog of [f0], if the pixel has galaxies. *)
Definition mthr_target (f0 : h5file) (q : float) (nside_mthr : option Z)
    (j : Z) : option float :=
match mthr_pixel_galaxies f0 (default (nside f0) nside_mthr) j with
| [] => None
| ind => Some (np_percentile (Np.index (map g_m (galaxies f0)) ind) q)
end.

Definition threshold_written (f0 : h5file) (q : float)
    (nside_mthr : option Z) (mthr_sky : list float) (j : Z) : Prop :=
match mthr_target f0 q nside_mthr j with
| None => True
| Some v => mthr_sky !! Z.to_nat j = Some v
end.

(** The checkpoint of the threshold map points past no pixel whose
    threshold is missing, and the pixels beyond the pixel of the checkpoint
    still hold the sentinel. *)
Definition mthr_checkpoint_safe (f0 : h5file) (q : float)
    (nside_mthr : option Z) (f : h5file) : Prop :=
forall gr c,
  groups f !! mthr_group = Some gr -> checkpoint_of gr = Some c ->
  0 <= c
  /\ attrs gr !! "mthr_percentile" = Some (AFloat q)
  /\ exists mthr_sky,
       dsets gr !! "mthr_sky" = Some (FloatArr mthr_sky)
       /\ length mthr_sky = Z.to_nat (npixels f0)
       /\ (forall j, 0 <= j < c -> threshold_written f0 q nside_mthr mthr_sky j)
       /\ (forall j, c < j < npixels f0 ->
             mthr_sky !! Z.to_nat j = Some LOWERL).

(** The files that runs of the threshold estimation with the same
    arguments, each cut after any number of writes, make of the file [f0],
    as long as the catalog is the one of [f0]. *)
Inductive mthr_reachable (f0 : h5file) (q : float) (nside_mthr : option Z)
  : h5file -> Prop :=
| mthr_reach_fresh : mthr_reachable f0 q nside_mthr f0
| mthr_reach_run f n :
    mthr_reachable f0 q nside_mthr f ->
    galaxies
      (fst (exec_interrupted n
              (calculate_mthr f (Percentile q) nside_mthr) f))
    = galaxies f0 ->
    mthr_reachable f0 q nside_mthr
      (fst (exec_interrupted n
              (calculate_mthr f (Percentile q) nside_mthr) f)).

End Reachable.

(** The steps of the interpolant build that touch neither the checkpoint
  nor a column. *)
Definition benign (s : step) : Prop :=
match s with
| SetAttr g key _ => g = interp_group /\ key <> "sky_checkpoint"
| CreateDataset g name _ =>
    g = interp_group /\ forall j, name <> vals_pixel j
| CloseFile => True
| _ => False
end.

(** Two files with the same checkpoint and the same columns. *)
Definition same_view (f f' : h5file) : Prop :=
exists gr gr',
  groups f !! interp_group = Some gr
  /\ groups f' !! interp_group = Some gr'
  /\ checkpoint_of gr' = checkpoint_of gr
  /\ forall j, has_column gr' j <-> has_column gr j.

(** What holds when the loop of the interpolant build reaches the pixel
    [c]. *)
Definition loop_pre (c : Z) (f : h5file) : Prop :=
interp_checkpoint_safe f /\ 0 <= c
/\ exists gr, groups f !! interp_group = Some gr
     /\ (forall j, 0 <= j < c -> has_column gr j)
     /\ (forall j, c < j -> ~ has_column gr j).

(** A file with the catalog and the pixelisation of [f0]. *)
Definition same_catalog_as (f0 f : h5file) : Prop :=
galaxies f = galaxies f0 /\ nside f = nside f0 /\ npixels f = npixels f0.

(** What holds when the loop of the threshold estimation reaches the pixel
    [c]. *)
Definition mthr_loop_invariant `{ML : MathLib} `{CO : Collaborators}
    (f0 : h5file) (q : float) (nside_mthr : option Z) (c : Z) (f : h5file)
  : Prop :=
mthr_checkpoint_safe f0 q nside_mthr f /\ 0 <= c
/\ exists gr mthr_sky,
     groups f !! mthr_group = Some gr
     /\ attrs gr !! "mthr_percentile" = Some (AFloat q)
     /\ dsets gr !! "mthr_sky" = Some (FloatArr mthr_sky)
     /\ length mthr_sky = Z.to_nat (npixels f0)
     /\ (forall j, 0 <= j < c ->
           threshold_written f0 q nside_mthr mthr_sky j)
     /\ (forall j, c < j < npixels f0 ->
           mthr_sky !! Z.to_nat j = Some LOWERL).

(** The steps other than [FilterCatalog] leave the rows of the catalog. *)
Definition keeps_catalog (s : step) : Prop :=
match s with
| FilterCatalog => False
| _ => True
end.

(** ** Small inputs for the examples *)

Module Sample.

(** [dec a k] is the literal with digits [a] and [k] decimals. *)
Definition dec (a : Z) (k : Z) : float :=
F64.div (F64.of_Z a) (F64.of_Z (10 ^ k)).

(** A cosmology whose volume grows like the redshift. *)
Definition cosmology : Cosmology :=
{| z2dl := fun z => z;
   dVc_by_dzdOmega_at_z := fun _ => F64.one;
   z2Vc := fun z => z;
   cosmo_zmax := F64.of_Z 10 |}.

(** Stand-ins for the transcendental functions and the percentile (here the
    smallest entry): the examples do not depend on their values. *)
Definition math : MathLib :=
{| np_exp := fun x => x;
   np_log := fun x => x;
   np_power := fun x _ => x;
   trapz := fun y _ => foldr F64.add F64.zero y;
   np_percentile := fun a _ => hd F64.nan (Np.sort a) |}.

(** Two pixels: the northern and the southern half of the sky. *)
Definition collaborators : Collaborators :=
{| radec2indeces := fun _ dec _ => if F64.ltb dec F64.zero then 1 else 0;
   indices2radec := fun i _ =>
     (F64.zero, if (i =? 0)%Z then F64.one else SFopp F64.one);
   m2M := fun m _ _ => m;
   kcorr := fun _ _ => F64.zero;
   absM_rate_evaluate := fun _ _ _ _ => F64.one;
   background_effective_galaxy_density := fun _ _ _ M => M |}.

Definition gal (z sigmaz m : float) (pix : Z) : galaxy :=
{| g_ra := F64.zero;
   g_dec := if (pix =? 0)%Z then F64.one else SFopp F64.one;
   g_z := z; g_sigmaz := sigmaz; g_m := m; g_sky_indices := pix |}.

Definition file (gals : list galaxy) : h5file :=
{| band := "K"; nside := 1; npixels := 2;
   dOmega_sterad := F64.one; Ngal := Z.of_nat (length gals);
   galaxies := gals; groups := ∅ |}.

(** The object after [load_hdf5] of a file with a threshold map and a
    table of three redshifts and two pixels. *)
Definition loaded : galaxy_catalog :=
{| cat_band := "K"; cat_epsilon := F64.one;
   mthr_map := MthrArr [F64.of_Z 15; F64.of_Z 16];
   z_grid := [F64.lit_1em6; dec 5 1; F64.one];
   pixel_grid := [0; 1];
   dNgal_dzdOm_vals :=
     [[F64.of_Z 1; F64.of_Z 2]; [F64.of_Z 3; F64.of_Z 4];
      [F64.of_Z 5; F64.of_Z 6]];
   dNgal_dzdOm_sky_mean := [dec 15 1; dec 35 1; dec 55 1] |}.

(** The same object when the threshold map was computed as ['empty']. *)
Definition unloaded : galaxy_catalog :=
{| cat_band := "K"; cat_epsilon := F64.one;
   mthr_map := MthrStr "empty";
   z_grid := z_grid loaded; pixel_grid := pixel_grid loaded;
   dNgal_dzdOm_vals := dNgal_dzdOm_vals loaded;
   dNgal_dzdOm_sky_mean := dNgal_dzdOm_sky_mean loaded |}.

Definition vector {A : Type} (l : list A) : shaped A :=
{| shape := [length l]; flat := l |}.

(** A catalog of one galaxy in the pixel 0 and a build of its interpolant
    with ten samples, one sigma and [zcut = 1]. *)
Definition one_galaxy : h5file :=
file [gal (dec 5 1) (dec 1 1) (F64.of_Z 15) 0].

Definition build (f : h5file) : list step :=
calc_dN_by_dzdOmega_interpolant (ML := math) (CO := collaborators)
  f cosmology F64.zero 10 F64.one (Some F64.one) "uniform".

(** The file when the process ends after [n] writes of the first run. *)
Definition interrupted (n : nat) : h5file :=
fst (exec_interrupted n (build one_galaxy) one_galaxy).

(** A catalog of two galaxies in the pixel 0 for the threshold map. *)
Definition two_galaxies : h5file :=
file [gal (dec 1 1) (dec 1 2) (F64.of_Z 12) 0;
      gal (dec 2 1) (dec 1 2) (F64.of_Z 15) 0].

End Sample.

(** * Properties *)

(** ** Facts on the comparison of binary64 values *)

Ltac cmp_cases :=
  repeat match goal with
  | |- context [Z.compare ?a ?b] => destruct (Z.compare_spec a b)
  | H : context [Z.compare ?a ?b] |- _ => destruct (Z.compare_spec a b)
  | |- context [Pos.compare_cont Eq ?a ?b] =>
      change (Pos.compare_cont Eq a b) with (Pos.compare a b);
      destruct (Pos.compare_spec a b)
  | H : context [Pos.compare_cont Eq ?a ?b] |- _ =>
      change (Pos.compare_cont Eq a b) with (Pos.compare a b) in H;
      destruct (Pos.compare_spec a b)
  end.

Lemma SFcompare_refl x : F64.is_nan x = false -> SFcompare x x = Some Eq.
Proof.
  destruct x as [s|s| |s m e]; intros H; try discriminate; simpl.
  - reflexivity.
  - by destruct s.
  - rewrite Z.compare_refl.
    change (Pos.compare_cont Eq m m) with (Pos.compare m m).
    rewrite Pos.compare_refl. by destruct s.
Qed.

Lemma SFcompare_antisym x y c :
  SFcompare x y = Some c -> SFcompare y x = Some (CompOpp c).
Proof.
  destruct x as [s1|s1| |s1 m1 e1], y as [s2|s2| |s2 m2 e2]; simpl;
    intros H; try discriminate; injection H as <-;
    try (destruct s1; reflexivity); try (destruct s2; reflexivity);
    try (destruct s1, s2; reflexivity).
  rewrite (Z.compare_antisym e1 e2).
  change (Pos.compare_cont Eq m2 m1) with (Pos.compare m2 m1).
  change (Pos.compare_cont Eq m1 m2) with (Pos.compare m1 m2).
  rewrite (Pos.compare_antisym m1 m2).
  destruct s1, s2; simpl; try reflexivity;
    destruct (e1 ?= e2); simpl; try reflexivity;
    destruct (m1 ?= m2)%positive; reflexivity.
Qed.

Lemma SFcompare_trans_lt x y z :
  SFcompare x y = Some Lt -> SFcompare y z = Some Lt ->
  SFcompare x z = Some Lt.
Proof.
  destruct x as [s1|s1| |s1 m1 e1], y as [s2|s2| |s2 m2 e2],
           z as [s3|s3| |s3 m3 e3];
    simpl; intros H1 H2; try discriminate;
    try (destruct s1; try discriminate); try (destruct s2; try discriminate);
    try (destruct s3; try discriminate); try reflexivity;
    injection H1 as H1; injection H2 as H2; f_equal;
    cmp_cases; try discriminate; try reflexivity; subst; try lia.
Qed.

Lemma SFcompare_eq_l x y z :
  SFcompare x y = Some Eq -> SFcompare y z = SFcompare x z.
Proof.
  destruct x as [s1|s1| |s1 m1 e1], y as [s2|s2| |s2 m2 e2];
    simpl; intros H1; try discriminate;
    try (destruct s1; try discriminate); try (destruct s2; try discriminate);
    try reflexivity.
  all: injection H1 as H1; cmp_cases; try discriminate; subst; reflexivity.
Qed.

Lemma SFcompare_some x y :
  F64.is_nan x = false -> F64.is_nan y = false ->
  exists c, SFcompare x y = Some c.
Proof.
  destruct x, y; simpl; intros; try discriminate; eauto.
Qed.

Lemma F64_leb_refl x : F64.is_nan x = false -> F64.leb x x = true.
Proof. intros H. unfold F64.leb, SFleb. by rewrite SFcompare_refl. Qed.

(** Two numbers that are not in the order [x <= y] are in the order
    [y < x]. *)
Lemma F64_not_leb_ltb x y :
  F64.is_nan x = false -> F64.is_nan y = false ->
  F64.leb x y = false -> F64.ltb y x = true.
Proof.
  intros Hx Hy. unfold F64.leb, F64.ltb, SFleb, SFltb.
  destruct (SFcompare_some x y Hx Hy) as [c Hc].
  rewrite Hc, (SFcompare_antisym _ _ _ Hc). by destruct c.
Qed.

Lemma F64_ltb_not_leb x y : F64.ltb x y = true -> F64.leb y x = false.
Proof.
  unfold F64.leb, F64.ltb, SFleb, SFltb.
  destruct (SFcompare x y) as [c|] eqn:Hc; [|done].
  rewrite (SFcompare_antisym _ _ _ Hc). by destruct c.
Qed.

(** ** The redshift likelihood: [EM_likelihood_prior_differential_volume] *)

Section EMFacts.

Context `{ML : MathLib}.

Local Open Scope f64_scope.

Lemma EM_unknown_ptype z zobs sigmaz cosmology Numsigma ptype :
  ptype <> "uniform" -> ptype <> "gaussian" -> ptype <> "gaussian_nocom" ->
  EM_likelihood_prior_differential_volume z zobs sigmaz cosmology Numsigma ptype
  = Raise (UnboundLocalError "prior_eval").
Proof.
  intros H1 H2 H3. unfold EM_likelihood_prior_differential_volume.
  apply String.eqb_neq in H1, H2, H3. by rewrite H1, H2, H3.
Qed.

(** With a zero [sigmaz] the upper limit [zobs + 5 sigmaz] does not exceed
    the lower one. *)
Lemma zero_sigmaz_guard zobs sigmaz Numsigma :
  (sigmaz ==? F64.zero) = true -> F64.is_nan zobs = false ->
  F64.is_finite Numsigma = true ->
  (zobs + five * sigmaz <=? EM_zvalmin zobs sigmaz Numsigma) = true.
Proof.
  intros Hs Hz Hn.
  destruct sigmaz as [s|s| |s ms es]; try discriminate;
    try (destruct s; discriminate).
  unfold EM_zvalmin.
  assert (Hm : exists s', Numsigma * S754_zero s = S754_zero s').
  { destruct Numsigma; try discriminate; simpl; eauto. }
  destruct Hm as [s' ->].
  change (five * S754_zero s) with (S754_zero (xorb false s)).
  generalize (xorb false s). intros s2.
  destruct zobs as [sz|sz| |sz m e]; try discriminate.
  - by destruct sz, s2, s'.
  - by destruct sz.
  - change (S754_finite sz m e + S754_zero s2) with (S754_finite sz m e).
    change (S754_finite sz m e - S754_zero s') with (S754_finite sz m e).
    unfold Np.max2.
    change (F64.is_nan F64.lit_1em6) with false. rewrite orb_false_r.
    unfold F64.geb.
    destruct (SFleb (S754_finite sz m e) F64.lit_1em6) eqn:E; [exact E|].
    by apply F64_leb_refl.
Qed.

(** C10.  [EM_likelihood_prior_differential_volume] returns a value only
    for the modes ['uniform'], ['gaussian'] and ['gaussian_nocom']; for any
    other [ptype] the final [return prior_eval] reads a variable that no
    branch assigned, and the call raises [UnboundLocalError]. *)
Theorem EM_returns_only_for_known_ptype
    z zobs sigmaz cosmology Numsigma ptype :
  (ptype <> "uniform" -> ptype <> "gaussian" -> ptype <> "gaussian_nocom" ->
   EM_likelihood_prior_differential_volume
     z zobs sigmaz cosmology Numsigma ptype
   = Raise (UnboundLocalError "prior_eval"))
  /\ (forall v,
        EM_likelihood_prior_differential_volume
          z zobs sigmaz cosmology Numsigma ptype = Ok v ->
        ptype = "uniform" \/ ptype = "gaussian" \/ ptype = "gaussian_nocom").
Proof.
  split; [apply EM_unknown_ptype|].
  intros v Hv.
  destruct (decide (ptype = "uniform")) as [|H1]; [by left|].
  destruct (decide (ptype = "gaussian")) as [|H2]; [by right; left|].
  destruct (decide (ptype = "gaussian_nocom")) as [|H3]; [by right; right|].
  rewrite EM_unknown_ptype in Hv by done. discriminate.
Qed.

(** C1, as the code has it.  In the modes ['gaussian'] and
    ['gaussian_nocom']: when the upper limit [zobs + 5 sigmaz] does not
    exceed the lower limit, the call returns the all-zero array and computes
    no normalisation; this is the case of [sigmaz = 0].  When the upper limit
    exceeds the lower one and the normalisation integral is zero or NaN, the
    call raises [ValueError('Normalization failed')]. *)
Theorem EM_gaussian_normalization_guarded
    z zobs sigmaz cosmology Numsigma ptype :
  ptype = "gaussian" \/ ptype = "gaussian_nocom" ->
  let zvalmin := EM_zvalmin zobs sigmaz Numsigma in
  let zvalmax := zobs + five * sigmaz in
  let normfact :=
    if String.eqb ptype "gaussian"
    then gaussian_normfact zobs sigmaz cosmology zvalmin zvalmax
    else gaussian_nocom_normfact zobs sigmaz zvalmin zvalmax in
  let result :=
    EM_likelihood_prior_differential_volume
      z zobs sigmaz cosmology Numsigma ptype in
  ((zvalmax <=? zvalmin) = true -> result = Ok (Np.zeros_like z))
  /\ ((zvalmax <=? zvalmin) = false ->
      (normfact ==? F64.zero) = true \/ F64.is_nan normfact = true ->
      result = Raise (ValueError "Normalization failed"))
  /\ ((sigmaz ==? F64.zero) = true -> F64.is_nan zobs = false ->
      F64.is_finite Numsigma = true -> result = Ok (Np.zeros_like z)).
Proof.
  intros Hp zvalmin zvalmax normfact result.
  assert (Hguard : (zvalmax <=? zvalmin) = true ->
                   result = Ok (Np.zeros_like z)).
  { intros Hg. subst result.
    unfold EM_likelihood_prior_differential_volume.
    fold zvalmin. fold zvalmax.
    destruct Hp as [-> | ->]; simpl; by rewrite Hg. }
  split; [exact Hguard|]. split.
  - intros Hg Hn. subst result normfact.
    unfold EM_likelihood_prior_differential_volume.
    fold zvalmin. fold zvalmax.
    destruct Hp as [-> | ->]; simpl; simpl in Hn; rewrite Hg;
      unfold normalise;
      destruct Hn as [-> | Hn]; try reflexivity;
      rewrite Hn; by destruct (_ ==? _).
  - intros Hs Hz Hn. apply Hguard. by apply zero_sigmaz_guard.
Qed.

End EMFacts.

Lemma EM_returns_only_for_known_ptype_witness :
  EM_likelihood_prior_differential_volume (ML := Sample.math)
    [F64.one] F64.one F64.one Sample.cosmology F64.one "lorentzian"
  = Raise (UnboundLocalError "prior_eval").
Proof.
  apply (EM_returns_only_for_known_ptype (ML := Sample.math)); discriminate.
Defined.

(** C1, as stated, fails: with [sigmaz = 0] the mode ['gaussian'] returns
    zeros and raises nothing. *)
Lemma EM_gaussian_sigmaz_zero_returns_zeros :
  EM_likelihood_prior_differential_volume (ML := Sample.math)
    [Sample.dec 4 1; Sample.dec 5 1] (Sample.dec 5 1) F64.zero
    Sample.cosmology five "gaussian"
  = Ok [F64.zero; F64.zero]
  /\ EM_likelihood_prior_differential_volume (ML := Sample.math)
       [Sample.dec 4 1; Sample.dec 5 1] (Sample.dec 5 1) F64.zero
       Sample.cosmology five "gaussian_nocom"
     = Ok [F64.zero; F64.zero].
Proof. split; vm_compute; reflexivity. Qed.

Lemma EM_gaussian_normalization_guarded_witness :
  EM_likelihood_prior_differential_volume (ML := Sample.math)
    [Sample.dec 4 1] (Sample.dec 5 1) F64.zero Sample.cosmology five "gaussian"
  = Ok [F64.zero]
  /\ EM_likelihood_prior_differential_volume (ML := Sample.math)
       [Sample.dec 4 1] F64.nan F64.one Sample.cosmology five "gaussian_nocom"
     = Raise (ValueError "Normalization failed").
Proof.
  split.
  - apply (proj1 (EM_gaussian_normalization_guarded (ML := Sample.math)
             [Sample.dec 4 1] (Sample.dec 5 1) F64.zero Sample.cosmology five
             "gaussian" (or_introl eq_refl))).
    reflexivity.
  - apply (proj1 (proj2 (EM_gaussian_normalization_guarded (ML := Sample.math)
             [Sample.dec 4 1] F64.nan F64.one Sample.cosmology five
             "gaussian_nocom" (or_intror eq_refl)))).
    + reflexivity.
    + right. vm_compute. reflexivity.
Defined.

(** ** The query *)

Lemma zip_with_map_same {A B C D : Type} (f : B -> C -> D) (g : A -> B)
    (h : A -> C) (l : list A) :
  zip_with f (map g l) (map h l) = map (fun x => f (g x) (h x)) l.
Proof. induction l as [|x l IH]; simpl; [done|]. by rewrite IH. Qed.

Lemma res_map_ok {A B : Type} (k : A -> res B) (l : list A) :
  Forall (fun x => exists y, k x = Ok y) l ->
  exists ys, res_map k l = Ok ys /\ length ys = length l
    /\ forall i x, l !! i = Some x -> exists y, ys !! i = Some y /\ k x = Ok y.
Proof.
  induction 1 as [|x l [y Hy] Hl (ys & Hys & Hlen & Hlook)]; simpl.
  - exists []. split; [done|]. split; [done|]. intros i x Hx. by destruct i.
  - rewrite Hy, Hys. simpl. exists (y :: ys). split; [done|].
    split; [simpl; by rewrite Hlen|].
    intros [|i] x' Hx'; simpl in *.
    + injection Hx' as <-. eauto.
    + eauto.
Qed.

Lemma res_map_inv {A B : Type} (k : A -> res B) (l : list A) ys :
  res_map k l = Ok ys ->
  length ys = length l
  /\ forall i x, l !! i = Some x -> exists y, ys !! i = Some y /\ k x = Ok y.
Proof.
  revert ys. induction l as [|x l IH]; simpl; intros ys H.
  - injection H as <-. split; [done|]. intros i x Hx. by destruct i.
  - destruct (k x) as [y|] eqn:Hy; [|discriminate]. simpl in H.
    destruct (res_map k l) as [ys'|] eqn:Hys; [|discriminate].
    simpl in H. injection H as <-.
    destruct (IH ys' eq_refl) as [Hlen Hlook].
    split; [simpl; by rewrite Hlen|].
    intros [|i] x' Hx'; simpl in *.
    + injection Hx' as <-. eauto.
    + eauto.
Qed.

Lemma np_getitem_in_range {A : Type} (a : list A) (i : Z) :
  - Z.of_nat (length a) <= i < Z.of_nat (length a) ->
  exists x, np_getitem a i = Ok x.
Proof.
  intros Hi. unfold np_getitem.
  set (j := if i <? 0 then i + Z.of_nat (length a) else i).
  assert (Hj : 0 <= j < Z.of_nat (length a)).
  { subst j. destruct (Z.ltb_spec i 0); lia. }
  destruct (Z.leb_spec 0 j); [|lia].
  destruct (Z.ltb_spec j (Z.of_nat (length a))); [|lia].
  simpl. destruct (a !! Z.to_nat j) as [x|] eqn:E; [eauto|].
  apply lookup_ge_None in E. lia.
Qed.

(** [a[-1]] is the last entry. *)
Lemma np_getitem_last {A : Type} (a : list A) x :
  last a = Some x -> np_getitem a (-1) = Ok x.
Proof.
  intros Hl. rewrite last_lookup in Hl.
  assert (Hlen : (0 < length a)%nat).
  { apply lookup_lt_Some in Hl. lia. }
  unfold np_getitem. simpl.
  destruct (Z.leb_spec 0 (-1 + Z.of_nat (length a))); [|lia].
  destruct (Z.ltb_spec (-1 + Z.of_nat (length a)) (Z.of_nat (length a)));
    [|lia].
  simpl. replace (Z.to_nat (-1 + Z.of_nat (length a))) with (pred (length a))
    by lia.
  by rewrite Hl.
Qed.

Section QueryFacts.

Context `{CO : Collaborators}.

Local Open Scope f64_scope.

(** C5.  When the threshold map is the string ['empty'], the query returns
    a catalog density that is zero at every point and the background density
    of the luminosity model at the threshold [-inf] times the differential
    comoving volume at each redshift; no other field of the object is read. *)
Theorem empty_map_query self z skypos cosmology dl average s :
  mthr_map self = MthrStr s ->
  effective_galaxy_number_interpolant self z skypos cosmology dl average
  = Ok (np_reshape (shape z) (replicate (length (flat z)) F64.zero),
        np_reshape (shape z)
          (map (fun zi =>
                  background_effective_galaxy_density
                    (cat_epsilon self) (cat_band self) cosmology F64.neg_inf
                  * dVc_by_dzdOmega_at_z cosmology zi) (flat z))).
Proof.
  intros Hm. unfold effective_galaxy_number_interpolant. rewrite Hm.
  unfold background.
  change (F64.neg_inf * F64.one) with F64.neg_inf.
  rewrite map_map, zip_with_map_same.
  do 3 f_equal. induction (flat z) as [|x l IH]; simpl; [done|]. by rewrite IH.
Qed.

Lemma clamp_Mthr_spec zlast z M k zk Mk :
  z !! k = Some zk -> clamp_Mthr zlast z M !! k = Some Mk ->
  (zk >? zlast) = true -> Mk = F64.neg_inf.
Proof.
  unfold clamp_Mthr. intros Hz HM Hgt.
  apply lookup_zip_with_Some in HM as (zi & Mi & -> & Hzi & HMi).
  rewrite Hz in Hzi. injection Hzi as <-. by rewrite Hgt.
Qed.


End QueryFacts.

Lemma empty_map_query_witness :
  effective_galaxy_number_interpolant (CO := Sample.collaborators)
    Sample.unloaded (Sample.vector [Sample.dec 5 1; F64.of_Z 2])
    (Sample.vector [0; 1]) Sample.cosmology None false
  = Ok (Sample.vector [F64.zero; F64.zero],
        Sample.vector [F64.neg_inf; F64.neg_inf]).
Proof.
  apply (empty_map_query (CO := Sample.collaborators) Sample.unloaded
           (Sample.vector [Sample.dec 5 1; F64.of_Z 2])
           (Sample.vector [0; 1]) Sample.cosmology None false "empty").
  reflexivity.
Defined.


(** ** Runs *)

Lemma exec_app p1 p2 f :
  exec (p1 ++ p2) f
  = match exec p1 f with
    | (f1, None) => exec p2 f1
    | (f1, Some e) => (f1, Some e)
    end.
Proof.
  revert f. induction p1 as [|s p1 IH]; intros f; simpl; [done|].
  destruct (exec_step s f) as [f'|e]; [apply IH|done].
Qed.

Lemma exec_step_galaxies s f f' :
  keeps_catalog s -> exec_step s f = Ok f' -> galaxies f' = galaxies f.
Proof.
  destruct s; simpl; intros Hk H; try done;
    repeat match type of H with
           | match ?x with _ => _ end = _ => destruct x eqn:?; try discriminate
           end;
    by injection H as <-.
Qed.

Lemma exec_galaxies plan f f' e :
  Forall keeps_catalog plan -> exec plan f = (f', e) ->
  galaxies f' = galaxies f.
Proof.
  intros Hk. revert f. induction Hk as [|s plan Hs _ IH]; intros f; simpl.
  - by intros [= <- <-].
  - destruct (exec_step s f) as [f1|e1] eqn:E.
    + intros H. rewrite (IH _ H). by eapply exec_step_galaxies.
    + by intros [= <- <-].
Qed.

Lemma Forall_flat_map_intro {A B : Type} (P : B -> Prop) (g : A -> list B) l :
  (forall x, Forall P (g x)) -> Forall P (flat_map g l).
Proof.
  intros H. induction l as [|x l IH]; cbn [flat_map]; [done|].
  apply Forall_app. by split.
Qed.

Section ThresholdFacts.
Context `{ML : MathLib} `{CO : Collaborators}.
Local Open Scope f64_scope.

Lemma mthr_pixel_steps_keep f ns q i :
  Forall keeps_catalog (mthr_pixel_steps f ns q i).
Proof.
  unfold mthr_pixel_steps. constructor; [done|].
  destruct (mthr_pixel_galaxies f ns i); [done|].
  destruct q; by repeat constructor.
Qed.

Lemma mthr_loop_keep f ns q c : Forall keeps_catalog (mthr_loop f ns q c).
Proof.
  apply Forall_flat_map_intro. intros i. apply mthr_pixel_steps_keep.
Qed.

Lemma mthr_open_keep f p ns : Forall keeps_catalog (mthr_open f p ns).1.1.
Proof.
  unfold mthr_open. destruct (groups f !! mthr_group); simpl;
    by repeat constructor.
Qed.

Lemma keep_galaxies_spec sky gals thr g :
  castmthr sky gals = Ok thr ->
  g ∈ keep_galaxies gals thr
  <-> g ∈ gals
      /\ exists t, np_getitem sky (g_sky_indices g) = Ok t
                   /\ (g_m g <=? t) = true.
Proof.
  intros Hc. apply res_map_inv in Hc as [Hlen Hlook].
  unfold keep_galaxies. rewrite list_elem_of_omap. split.
  - intros ([g' t] & Hin & Hk).
    apply list_elem_of_lookup in Hin as [i Hi].
    apply lookup_zip_with_Some in Hi as (g1 & t1 & [= <- <-] & Hg & Ht).
    destruct (g_m g' <=? t) eqn:E; [|discriminate]. injection Hk as <-.
    split; [by eapply list_elem_of_lookup_2|].
    destruct (Hlook _ _ Hg) as (y & Hy & Hget).
    rewrite Ht in Hy. injection Hy as <-. eauto.
  - intros (Hin & t & Hget & Hle).
    apply list_elem_of_lookup in Hin as [i Hi].
    destruct (Hlook _ _ Hi) as (y & Hy & Hget').
    rewrite Hget in Hget'. injection Hget' as <-.
    exists (g, t). split.
    + apply list_elem_of_lookup. exists i.
      apply lookup_zip_with_Some. by exists g, t.
    + by rewrite Hle.
Qed.

Lemma castmthr_ok sky gals thr g :
  castmthr sky gals = Ok thr -> g ∈ gals ->
  exists t, np_getitem sky (g_sky_indices g) = Ok t.
Proof.
  intros Hc Hin. apply res_map_inv in Hc as [_ Hlook].
  apply list_elem_of_lookup in Hin as [i Hi].
  destruct (Hlook _ _ Hi) as (y & _ & Hget). eauto.
Qed.

(** C4.  When [calculate_mthr] with a numeric percentile completes, every
    galaxy left in the catalog has a magnitude [<=] the threshold of its sky
    pixel, every galaxy removed has a magnitude that is not [<=] the
    threshold, hence [>] it when neither is NaN, and no galaxy whose
    magnitude is above the sentinel [LOWERL] is left in a pixel that holds
    the sentinel. *)
Theorem threshold_filter_postcondition f q ns f' :
  exec (calculate_mthr f (Percentile q) ns) f = (f', None) ->
  exists gr mthr_sky,
    groups f' !! mthr_group = Some gr
    /\ dsets gr !! "mthr_sky" = Some (FloatArr mthr_sky)
    /\ (forall g, g ∈ galaxies f' ->
          g ∈ galaxies f
          /\ exists t, np_getitem mthr_sky (g_sky_indices g) = Ok t
                       /\ (g_m g <=? t) = true)
    /\ (forall g, g ∈ galaxies f -> g ∉ galaxies f' ->
          exists t, np_getitem mthr_sky (g_sky_indices g) = Ok t
                    /\ (g_m g <=? t) = false
                    /\ (F64.is_nan (g_m g) = false -> F64.is_nan t = false ->
                        (g_m g >? t) = true))
    /\ (forall g, g ∈ galaxies f ->
          np_getitem mthr_sky (g_sky_indices g) = Ok LOWERL ->
          (g_m g >? LOWERL) = true -> g ∉ galaxies f').
Proof.
  unfold calculate_mthr.
  destruct (mthr_open f (Percentile q) (default (nside f) ns))
    as [[init q'] indx] eqn:Hopen.
  intros Hrun. rewrite exec_app in Hrun.
  destruct (exec init f) as [f1 [e1|]] eqn:Hinit; [discriminate|].
  destruct indx as [c|e]; [|simpl in Hrun; discriminate].
  rewrite exec_app in Hrun.
  destruct (exec (mthr_loop f _ q' c) f1) as [f2 [e2|]] eqn:Hloop;
    [discriminate|].
  assert (Hg2 : galaxies f2 = galaxies f).
  { rewrite (exec_galaxies _ _ _ _ (mthr_loop_keep _ _ _ _) Hloop).
    eapply exec_galaxies; [|exact Hinit].
    pose proof (mthr_open_keep f (Percentile q) (default (nside f) ns)) as Hk.
    by rewrite Hopen in Hk. }
  simpl in Hrun.
  destruct (groups f2 !! mthr_group) as [gr|] eqn:Hgr; [|discriminate].
  destruct (dsets gr !! "mthr_sky") as [[sky|]|] eqn:Hsky; try discriminate.
  destruct (castmthr sky (galaxies f2)) as [thr|] eqn:Hcast; [|discriminate].
  simpl in Hrun. injection Hrun as <-. simpl.
  exists gr, sky. split; [done|]. split; [done|].
  rewrite Hg2 in *.
  split; [|split].
  - intros g Hg. by apply (keep_galaxies_spec _ _ _ _ Hcast).
  - intros g Hin Hout.
    destruct (castmthr_ok _ _ _ _ Hcast Hin) as [t Ht].
    exists t. split; [done|].
    assert (Hle : (g_m g <=? t) = false).
    { destruct (g_m g <=? t) eqn:E; [|done]. exfalso. apply Hout.
      apply (keep_galaxies_spec _ _ _ _ Hcast). eauto. }
    split; [done|]. intros Hm Hn. by apply F64_not_leb_ltb.
  - intros g Hin Hget Hgt Hkept.
    apply (keep_galaxies_spec _ _ _ _ Hcast) in Hkept as (_ & t & Ht & Hle).
    rewrite Hget in Ht. injection Ht as <-.
    apply F64_ltb_not_leb in Hgt. unfold F64.gtb in *. congruence.
Qed.
End ThresholdFacts.

Lemma threshold_filter_postcondition_witness :
  let f := Sample.file
             [Sample.gal (Sample.dec 1 1) (Sample.dec 1 2) (F64.of_Z 12) 0;
              Sample.gal (Sample.dec 2 1) (Sample.dec 1 2) (F64.of_Z 15) 0] in
  let f' := fst (exec (calculate_mthr (ML := Sample.math)
                         (CO := Sample.collaborators)
                         f (Percentile (F64.of_Z 50)) None) f) in
  length (galaxies f') = 1%nat
  /\ exists gr mthr_sky,
       groups f' !! mthr_group = Some gr
       /\ dsets gr !! "mthr_sky" = Some (FloatArr mthr_sky)
       /\ (forall g, g ∈ galaxies f' ->
             g ∈ galaxies f
             /\ exists t, np_getitem mthr_sky (g_sky_indices g) = Ok t
                          /\ F64.leb (g_m g) t = true)
       /\ (forall g, g ∈ galaxies f -> g ∉ galaxies f' ->
             exists t, np_getitem mthr_sky (g_sky_indices g) = Ok t
                       /\ F64.leb (g_m g) t = false
                       /\ (F64.is_nan (g_m g) = false ->
                           F64.is_nan t = false ->
                           F64.gtb (g_m g) t = true))
       /\ (forall g, g ∈ galaxies f ->
             np_getitem mthr_sky (g_sky_indices g) = Ok LOWERL ->
             F64.gtb (g_m g) LOWERL = true -> g ∉ galaxies f').
Proof.
  intros f f'. split; [vm_compute; reflexivity|].
  apply (threshold_filter_postcondition (ML := Sample.math)
           (CO := Sample.collaborators) f (F64.of_Z 50) None f').
  vm_compute. reflexivity.
Defined.

(** ** The interpolant build *)

Lemma where_from_all_false i mask :
  Forall (fun b => b = false) mask -> Np.where_from i mask = [].
Proof.
  intros H. revert i. induction H as [|b mask -> _ IH]; intros i; simpl; auto.
Qed.

Lemma index_elem_of {A : Type} (a : list A) idx x :
  x ∈ Np.index a idx -> x ∈ a.
Proof.
  unfold Np.index. rewrite list_elem_of_omap. intros (i & _ & Hi).
  by eapply list_elem_of_lookup_2.
Qed.

Lemma nan_column (z_grid : list float) :
  map F64.to_float16 (map (fun _ => F64.nan) z_grid)
  = replicate (length z_grid) F64.nan.
Proof. induction z_grid as [|x l IH]; simpl; [done|]. by rewrite IH. Qed.

Section InterpFacts.

Context `{ML : MathLib} `{CO : Collaborators}.

Local Open Scope f64_scope.

Lemma pixel_galaxies_none sel i :
  (forall g, g ∈ sel -> g_sky_indices g <> i) -> pixel_galaxies sel i = [].
Proof.
  intros H. unfold pixel_galaxies, Np.where_.
  rewrite where_from_all_false; [done|].
  apply Forall_fmap, Forall_forall. intros g Hg. simpl.
  apply Z.eqb_neq. by apply H.
Qed.

Lemma build_z_grid_no_galaxy Numsigma zcut cosmo_ref Nintegration gals :
  idx_in_range Numsigma zcut gals = [] ->
  build_z_grid Numsigma zcut cosmo_ref Nintegration gals
  = Raise (NameError "maxz").
Proof. intros H. unfold build_z_grid. by rewrite H. Qed.

(** The first run on a file creates the group and its five attributes. *)
Lemma interp_open_fresh f epsilon Nintegration Numsigma zcut ptype :
  groups f !! interp_group = None ->
  exists f',
    exec (fst (interp_open f epsilon Nintegration Numsigma zcut ptype)) f
    = (f', None)
    /\ snd (interp_open f epsilon Nintegration Numsigma zcut ptype) = Ok 0%Z
    /\ galaxies f' = galaxies f /\ npixels f' = npixels f
    /\ exists gr, groups f' !! interp_group = Some gr /\ dsets gr = ∅
         /\ attrs gr !! "sky_checkpoint" = None.
Proof.
  intros Hf. unfold interp_open. rewrite Hf. simpl. rewrite Hf. simpl.
  repeat (rewrite lookup_insert_eq; simpl).
  eexists. split; [reflexivity|]. split; [done|]. split; [done|].
  split; [done|]. simpl. rewrite lookup_insert_eq. eexists. split; [done|].
  simpl. split; [done|].
  by vm_compute.
Qed.

(** C9, as the code has it.  When no galaxy has a support that overlaps
    [1e-6, zcut], the first run of the build ends with
    [NameError: name 'maxz' is not defined], raised while the message of the
    intended [ValueError] is formatted. *)
Theorem no_galaxy_in_range_raises_NameError
    f cosmo_ref epsilon Nintegration Numsigma zcut ptype :
  groups f !! interp_group = None ->
  idx_in_range (effective_Numsigma Numsigma ptype)
               (default (cosmo_zmax cosmo_ref) zcut) (galaxies f) = [] ->
  snd (exec (calc_dN_by_dzdOmega_interpolant
               f cosmo_ref epsilon Nintegration Numsigma zcut ptype) f)
  = Some (NameError "maxz").
Proof.
  intros Hf Hidx. unfold calc_dN_by_dzdOmega_interpolant.
  destruct (interp_open_fresh f epsilon Nintegration
              (effective_Numsigma Numsigma ptype) zcut ptype Hf)
    as (f' & Hexec & Hc & _).
  destruct (interp_open f epsilon Nintegration
              (effective_Numsigma Numsigma ptype) zcut ptype)
    as [init indx]. simpl in Hexec, Hc. subst indx.
  rewrite exec_app, Hexec.
  by rewrite (build_z_grid_no_galaxy _ _ _ _ _ Hidx).
Qed.

(** C7.  The column that the build stores for a pixel.  When no galaxy of
    the catalog has the pixel as its pixel, no galaxy in range has; when no
    galaxy in range has, the column is NaN at every redshift of the grid;
    otherwise every entry is the [float16] value of the logarithm of the
    accumulated sum, in which the entries equal to zero were first replaced
    by NaN. *)
Theorem pixel_column_stored
    f cosmo_ref epsilon Numsigma ptype gals idx z_grid i :
  let sel := Np.index gals idx in
  let checkpoint := SetAttr interp_group "sky_checkpoint" (AInt i) in
  ((forall g, g ∈ gals -> g_sky_indices g <> i) -> pixel_galaxies sel i = [])
  /\ (pixel_galaxies sel i = [] ->
      interp_pixel_steps f cosmo_ref epsilon Numsigma ptype sel z_grid i
      = [checkpoint;
         CreateDataset interp_group (vals_pixel i)
           (FloatArr (replicate (length z_grid) F64.nan))])
  /\ (forall interpo,
        pixel_galaxies sel i <> [] ->
        accumulate f cosmo_ref epsilon Numsigma ptype z_grid
                   (Np.zeros_like z_grid) (pixel_galaxies sel i)
        = Ok interpo ->
        interp_pixel_steps f cosmo_ref epsilon Numsigma ptype sel z_grid i
        = [checkpoint;
           CreateDataset interp_group (vals_pixel i)
             (FloatArr
                (map (fun s => F64.to_float16
                                 (np_log (if s ==? F64.zero then F64.nan
                                          else s))) interpo))]).
Proof.
  intros sel checkpoint. split; [|split].
  - intros H. apply pixel_galaxies_none. intros g Hg. apply H.
    by eapply index_elem_of.
  - intros Hnone. unfold interp_pixel_steps, pixel_column. rewrite Hnone.
    by rewrite nan_column.
  - intros interpo Hsome Hacc. unfold interp_pixel_steps, pixel_column.
    destruct (pixel_galaxies sel i) as [|g gs] eqn:E; [done|].
    rewrite Hacc. simpl. do 3 f_equal.
    unfold log_float16, zero_to_nan. by rewrite map_map.
Qed.

End InterpFacts.

Lemma no_galaxy_in_range_raises_NameError_witness :
  snd (exec (calc_dN_by_dzdOmega_interpolant (ML := Sample.math)
               (CO := Sample.collaborators)
               (Sample.file [Sample.gal (F64.of_Z 5) (Sample.dec 1 1)
                                        (F64.of_Z 15) 0])
               Sample.cosmology F64.zero 10 F64.one (Some F64.one) "uniform")
            (Sample.file [Sample.gal (F64.of_Z 5) (Sample.dec 1 1)
                                     (F64.of_Z 15) 0]))
  = Some (NameError "maxz").
Proof.
  apply (no_galaxy_in_range_raises_NameError (ML := Sample.math)
           (CO := Sample.collaborators)); reflexivity.
Defined.

Lemma pixel_column_stored_witness :
  interp_pixel_steps (ML := Sample.math) (CO := Sample.collaborators)
    (Sample.file []) Sample.cosmology F64.zero F64.one "uniform"
    (Np.index [Sample.gal (Sample.dec 5 1) (Sample.dec 1 1) (F64.of_Z 15) 0]
              [0%nat])
    [F64.lit_1em6; Sample.dec 5 1; F64.one] 1
  = [SetAttr interp_group "sky_checkpoint" (AInt 1);
     CreateDataset interp_group (vals_pixel 1)
       (FloatArr [F64.nan; F64.nan; F64.nan])]
  /\ interp_pixel_steps (ML := Sample.math) (CO := Sample.collaborators)
       (Sample.file []) Sample.cosmology F64.zero F64.one "uniform"
       (Np.index [Sample.gal (Sample.dec 5 1) (Sample.dec 1 1) (F64.of_Z 15) 0]
                 [0%nat])
       [F64.lit_1em6; Sample.dec 5 1; F64.one] 0
     = [SetAttr interp_group "sky_checkpoint" (AInt 0);
        CreateDataset interp_group (vals_pixel 0)
          (FloatArr [F64.nan;
                     F64.to_float16
                       (F64.mul (F64.of_Z 4) F64.pi
                        / (Sample.dec 6 1 - Sample.dec 4 1))%f64;
                     F64.nan])].
Proof.
  split.
  - apply (proj1 (proj2 (pixel_column_stored (ML := Sample.math)
             (CO := Sample.collaborators) (Sample.file []) Sample.cosmology
             F64.zero F64.one "uniform"
             [Sample.gal (Sample.dec 5 1) (Sample.dec 1 1) (F64.of_Z 15) 0]
             [0%nat] [F64.lit_1em6; Sample.dec 5 1; F64.one] 1))).
    reflexivity.
  - rewrite (proj2 (proj2 (pixel_column_stored (ML := Sample.math)
             (CO := Sample.collaborators) (Sample.file []) Sample.cosmology
             F64.zero F64.one "uniform"
             [Sample.gal (Sample.dec 5 1) (Sample.dec 1 1) (F64.of_Z 15) 0]
             [0%nat] [F64.lit_1em6; Sample.dec 5 1; F64.one] 0))
             [F64.zero;
              (F64.mul (F64.of_Z 4) F64.pi
               / (Sample.dec 6 1 - Sample.dec 4 1))%f64;
              F64.zero]).
    + vm_compute. reflexivity.
    + discriminate.
    + vm_compute. reflexivity.
Defined.

(** ** The redshift grid *)

(** *** The order on the values that are not NaN *)

Lemma F64_leb_nonnan x y :
  F64.leb x y = true -> F64.is_nan x = false /\ F64.is_nan y = false.
Proof. destruct x, y; simpl; try discriminate; auto. Qed.

Lemma F64_ltb_nonnan x y :
  F64.ltb x y = true -> F64.is_nan x = false /\ F64.is_nan y = false.
Proof. destruct x, y; simpl; try discriminate; auto. Qed.

Lemma F64_ltb_leb x y : F64.ltb x y = true -> F64.leb x y = true.
Proof.
  unfold F64.ltb, F64.leb, SFltb, SFleb.
  by destruct (SFcompare x y) as [[]|].
Qed.

Lemma F64_not_ltb_leb x y :
  F64.is_nan x = false -> F64.is_nan y = false ->
  F64.ltb y x = false -> F64.leb x y = true.
Proof.
  intros Hx Hy. unfold F64.leb, F64.ltb, SFleb, SFltb.
  destruct (SFcompare_some x y Hx Hy) as [c Hc].
  rewrite Hc, (SFcompare_antisym _ _ _ Hc). by destruct c.
Qed.

Lemma F64_leb_trans x y z :
  F64.leb x y = true -> F64.leb y z = true -> F64.leb x z = true.
Proof.
  unfold F64.leb, SFleb.
  destruct (SFcompare x y) as [[]|] eqn:Hxy; try discriminate;
    destruct (SFcompare y z) as [[]|] eqn:Hyz; try discriminate; intros _ _.
  - by rewrite <- (SFcompare_eq_l _ _ _ Hxy), Hyz.
  - by rewrite <- (SFcompare_eq_l _ _ _ Hxy), Hyz.
  - apply SFcompare_antisym in Hyz. simpl in Hyz.
    apply SFcompare_antisym in Hxy. simpl in Hxy.
    rewrite (SFcompare_eq_l _ _ _ Hyz) in Hxy.
    apply SFcompare_antisym in Hxy. simpl in Hxy. by rewrite Hxy.
  - by rewrite (SFcompare_trans_lt _ _ _ Hxy Hyz).
Qed.

Lemma F64_leb_antisym x y :
  F64.leb x y = true -> F64.leb y x = true -> SFcompare x y = Some Eq.
Proof.
  unfold F64.leb, SFleb.
  destruct (SFcompare x y) as [c|] eqn:Hxy; [|discriminate].
  rewrite (SFcompare_antisym _ _ _ Hxy). by destruct c.
Qed.

(** Two values that compare equal are the same value, unless they are
    zeros of different signs. *)
Lemma SFcompare_Eq_eq x y :
  SFcompare x y = Some Eq -> is_zero x = false -> x = y.
Proof.
  destruct x as [s1|s1| |s1 m1 e1], y as [s2|s2| |s2 m2 e2]; simpl;
    intros H Hz; try discriminate;
    try (destruct s1; discriminate); try (destruct s2; discriminate).
  - destruct s1, s2; try discriminate; reflexivity.
  - destruct s1, s2; try discriminate; injection H as H';
      cmp_cases; try discriminate; subst; reflexivity.
Qed.

(** *** [onp.sort] *)

Lemma Np_lt_nonnan x y : nonnan x -> nonnan y -> Np.lt x y = F64.ltb x y.
Proof. unfold Np.lt, nonnan. intros _ ->. by rewrite orb_false_r. Qed.

Lemma insert_sorted_elem x l y :
  y ∈ Np.insert_sorted x l <-> y = x \/ y ∈ l.
Proof.
  induction l as [|z l IH]; simpl.
  - rewrite list_elem_of_singleton, elem_of_nil. tauto.
  - destruct (Np.lt z x).
    + rewrite !elem_of_cons, IH. tauto.
    + rewrite !elem_of_cons. tauto.
Qed.

Lemma sort_elem l y : y ∈ Np.sort l <-> y ∈ l.
Proof.
  induction l as [|x l IH]; simpl; [done|].
  rewrite insert_sorted_elem, elem_of_cons, IH. done.
Qed.

Lemma insert_sorted_strongly x l :
  nonnan x -> Forall nonnan l -> StronglySorted le_rel l ->
  StronglySorted le_rel (Np.insert_sorted x l).
Proof.
  intros Hx Hl Hs. induction Hs as [|z l Hs IH Hz]; simpl.
  - repeat constructor.
  - inversion Hl as [|? ? Hzn Hln]; subst.
    rewrite Np_lt_nonnan by done.
    destruct (F64.ltb z x) eqn:E.
    + constructor; [by apply IH|].
      apply Forall_forall. intros y Hy.
      rewrite insert_sorted_elem in Hy. destruct Hy as [->|Hy].
      * by apply F64_ltb_leb.
      * rewrite Forall_forall in Hz. by apply Hz.
    + assert (Hxz : le_rel x z) by by apply F64_not_ltb_leb.
      constructor; [by constructor|].
      constructor; [done|].
      eapply Forall_impl; [exact Hz|]. intros y Hy.
      by eapply F64_leb_trans.
Qed.

Lemma sort_strongly l :
  Forall nonnan l -> StronglySorted le_rel (Np.sort l).
Proof.
  induction 1 as [|x l Hx Hl IH]; simpl; [constructor|].
  apply insert_sorted_strongly; [done| |done].
  apply Forall_forall. intros y Hy. rewrite sort_elem in Hy.
  rewrite Forall_forall in Hl. by apply Hl.
Qed.

Lemma strongly_sorted_last_max l m :
  StronglySorted le_rel l -> Forall nonnan l -> last l = Some m ->
  Forall (fun x => le_rel x m) l.
Proof.
  induction 1 as [|x l Hs IH Hx]; intros Hn Hl; [constructor|].
  inversion Hn as [|? ? Hxn Hln]; subst.
  destruct l as [|y l'].
  - simpl in Hl. injection Hl as <-. constructor; [|constructor].
    by apply F64_leb_refl.
  - change (last (x :: y :: l')) with (last (y :: l')) in Hl.
    constructor; [|by apply IH].
    rewrite Forall_forall in Hx. apply Hx.
    apply list_elem_of_lookup. exists (pred (length (y :: l'))).
    by rewrite <- last_lookup.
Qed.

(** *** [onp.unique] on a sorted array *)

Lemma keep_changes_increasing l p0 prev :
  SFcompare p0 prev = Some Eq ->
  StronglySorted le_rel (prev :: l) -> Forall nonnan (prev :: l) ->
  Sorted lt_rel (p0 :: Np.keep_changes prev l).
Proof.
  revert p0 prev. induction l as [|x l IH]; intros p0 prev Heq Hs Hn; simpl.
  - repeat constructor.
  - inversion Hs as [|? ? Hs' Hle]; subst.
    inversion Hn as [|? ? Hp Hn']; subst.
    inversion Hle as [|? ? Hpx _]; subst.
    inversion Hn' as [|? ? Hx _]; subst.
    unfold Np.same. rewrite Hp. simpl. rewrite orb_false_r.
    unfold F64.eqb, SFeqb.
    unfold le_rel, F64.leb, SFleb in Hpx.
    destruct (SFcompare prev x) as [[]|] eqn:Hc; try discriminate.
    + apply IH; [|done|done].
      by rewrite <- (SFcompare_eq_l _ _ _ Heq).
    + constructor.
      * apply IH; [by apply SFcompare_refl|done|done].
      * constructor. unfold lt_rel, F64.ltb, SFltb.
        by rewrite <- (SFcompare_eq_l _ _ _ Heq), Hc.
Qed.

Lemma dedup_sorted_increasing l :
  StronglySorted le_rel l -> Forall nonnan l ->
  Sorted lt_rel (Np.dedup_sorted l).
Proof.
  destruct l as [|x l]; simpl; [constructor|]. intros Hs Hn.
  apply keep_changes_increasing; [|done|done].
  inversion Hn; subst. by apply SFcompare_refl.
Qed.

Lemma keep_changes_last l p0 prev m :
  SFcompare p0 prev = Some Eq ->
  Forall nonnan (prev :: l) ->
  last (prev :: l) = Some m ->
  exists y, last (p0 :: Np.keep_changes prev l) = Some y
            /\ SFcompare y m = Some Eq.
Proof.
  revert p0 prev. induction l as [|x l IH]; intros p0 prev Heq Hn Hl.
  - simpl in *. injection Hl as <-. eauto.
  - change (last (prev :: x :: l)) with (last (x :: l)) in Hl.
    inversion Hn as [|? ? Hp Hn']; subst.
    inversion Hn' as [|? ? Hx _]; subst.
    simpl. unfold Np.same. rewrite Hp. simpl. rewrite orb_false_r.
    unfold F64.eqb, SFeqb.
    destruct (SFcompare prev x) as [[]|] eqn:Hc.
    + apply IH; [|done|done]. by rewrite <- (SFcompare_eq_l _ _ _ Heq).
    + change (last (p0 :: x :: Np.keep_changes x l))
        with (last (x :: Np.keep_changes x l)).
      apply IH; [by apply SFcompare_refl|done|done].
    + change (last (p0 :: x :: Np.keep_changes x l))
        with (last (x :: Np.keep_changes x l)).
      apply IH; [by apply SFcompare_refl|done|done].
    + change (last (p0 :: x :: Np.keep_changes x l))
        with (last (x :: Np.keep_changes x l)).
      apply IH; [by apply SFcompare_refl|done|done].
Qed.

(** *** Positions *)

Lemma where_from_elem i mask j :
  j ∈ Np.where_from i mask ->
  exists k, j = (i + k)%nat /\ mask !! k = Some true.
Proof.
  revert i. induction mask as [|b mask IH]; intros i; simpl.
  - by rewrite elem_of_nil.
  - destruct b.
    + rewrite elem_of_cons. intros [->|H].
      * exists 0%nat. split; [lia|done].
      * destruct (IH _ H) as (k & -> & Hk). exists (S k). split; [lia|done].
    + intros H. destruct (IH _ H) as (k & -> & Hk).
      exists (S k). split; [lia|done].
Qed.

Lemma index_elem {A : Type} (a : list A) idx x :
  x ∈ Np.index a idx <-> exists i, i ∈ idx /\ a !! i = Some x.
Proof. unfold Np.index. by rewrite list_elem_of_omap. Qed.

Lemma arange2_lookup start stop j i :
  Np.arange2 start stop !! j = Some i -> i = (start + 2 * j)%nat.
Proof.
  unfold Np.arange2. rewrite list_lookup_fmap.
  destruct (seq 0 ((stop - start + 1) / 2) !! j) as [k|] eqn:E;
    [|discriminate].
  apply lookup_seq in E as [-> _]. simpl. by intros [= <-].
Qed.

Lemma arange2_length start stop :
  length (Np.arange2 start stop) = ((stop - start + 1) / 2)%nat.
Proof. unfold Np.arange2. by rewrite length_map, length_seq. Qed.

Lemma arange2_bound start stop j i :
  Np.arange2 start stop !! j = Some i -> (i < stop)%nat.
Proof.
  intros H. pose proof (arange2_lookup _ _ _ _ H) as ->.
  apply lookup_lt_Some in H. rewrite arange2_length in H.
  pose proof (Nat.div_mod_eq (stop - start + 1) 2) as Hd.
  pose proof (Nat.mod_upper_bound (stop - start + 1) 2) as Hm.
  remember ((stop - start + 1) / 2)%nat as q.
  remember ((stop - start + 1) mod 2)%nat as r.
  lia.
Qed.

(** Fancy indexing with positions that are all in range. *)
Lemma index_lookup {A : Type} (a : list A) idx j :
  Forall (fun i => (i < length a)%nat) idx ->
  Np.index a idx !! j = idx !! j ≫= (a !!.).
Proof.
  intros H. revert j. unfold Np.index.
  induction H as [|i idx Hi _ IH]; intros j; simpl; [done|].
  destruct (a !! i) as [x|] eqn:E.
  - destruct j; simpl; [by rewrite E|apply IH].
  - apply lookup_ge_None in E. lia.
Qed.

Lemma diff_lookup l j d :
  Np.diff l !! j = Some d ->
  exists a b, l !! j = Some a /\ l !! S j = Some b /\ d = F64.sub b a.
Proof.
  unfold Np.diff. intros H.
  apply lookup_zip_with_Some in H as (a & b & -> & Ha & Hb).
  exists a, b. split; [done|]. split; [|done].
  by rewrite lookup_tail in Hb.
Qed.

Section PruneFacts.

Local Open Scope f64_scope.

(** A position that [prune] removes is odd and lies between two even
    positions of the array whose entries are closer than [delta]. *)
Lemma to_eliminate_elem zg delta i :
  i ∈ to_eliminate zg delta ->
  exists j a b,
    i = (2 * j + 1)%nat /\ zg !! (2 * j)%nat = Some a
    /\ zg !! (2 * j + 2)%nat = Some b /\ (b - a <? delta) = true.
Proof.
  unfold to_eliminate. rewrite index_elem. intros (j & Hj & Hi).
  apply where_from_elem in Hj as (k & -> & Hk). simpl in *.
  rewrite list_lookup_fmap in Hk.
  destruct (Np.diff _ !! k) as [d|] eqn:Hd; [|discriminate].
  simpl in Hk. injection Hk as Hk.
  apply diff_lookup in Hd as (a & b & Ha & Hb & ->).
  assert (Hall : Forall (fun i => (i < length zg)%nat)
                        (Np.arange2 0 (length zg))).
  { apply Forall_forall. intros x Hx.
    apply list_elem_of_lookup in Hx as [n Hn]. by eapply arange2_bound. }
  rewrite index_lookup in Ha, Hb by done.
  destruct (Np.arange2 0 (length zg) !! k) as [ia|] eqn:Eia; [|discriminate].
  destruct (Np.arange2 0 (length zg) !! S k) as [ib|] eqn:Eib;
    [|discriminate].
  apply arange2_lookup in Eia, Eib. subst ia ib. simpl in Ha, Hb.
  apply arange2_lookup in Hi. subst i.
  exists k, a, b. split; [lia|]. split.
  - exact Ha.
  - split; [|done].
    replace (k + (k + 0) + 2)%nat with (S (k + S (k + 0)))%nat by lia.
    exact Hb.
Qed.

Lemma delete_from_elem i a idx x :
  x ∈ Np.delete_from i a idx -> x ∈ a.
Proof.
  revert i. induction a as [|y a IH]; intros i; simpl; [done|].
  destruct (bool_decide (i ∈ idx)); rewrite ?elem_of_cons.
  - intros Hx. right. eauto.
  - intros [->|Hx]; [by left|right; eauto].
Qed.

Lemma delete_from_last i a idx m :
  last a = Some m -> (i + pred (length a))%nat ∉ idx ->
  last (Np.delete_from i a idx) = Some m.
Proof.
  revert i. induction a as [|y a IH]; intros i Hl Hn; [done|].
  destruct a as [|z a'].
  - simpl in *. replace (i + 0)%nat with i in Hn by lia.
    rewrite bool_decide_eq_false_2 by done. done.
  - change (last (y :: z :: a')) with (last (z :: a')) in Hl.
    assert (IH' : last (Np.delete_from (S i) (z :: a') idx) = Some m).
    { apply IH; [done|].
      assert (E : (S i + pred (length (z :: a'))
                   = i + pred (length (y :: z :: a')))%nat) by (simpl; lia).
      rewrite E. exact Hn. }
    remember (z :: a') as t eqn:Et. simpl.
    destruct (bool_decide (i ∈ idx)); [exact IH'|].
    destruct (Np.delete_from (S i) t idx) eqn:E; [discriminate|].
    exact IH'.
Qed.

Lemma prune_elem zg delta x : x ∈ prune zg delta -> x ∈ zg.
Proof. apply delete_from_elem. Qed.

Lemma prune_head zg delta : head (prune zg delta) = head zg.
Proof.
  unfold prune, Np.delete. destruct zg as [|x zg]; [done|].
  cbn [Np.delete_from]. rewrite bool_decide_eq_false_2; [done|].
  intros H. apply to_eliminate_elem in H as (j & _ & _ & Hj & _). lia.
Qed.

Lemma prune_last zg delta : last (prune zg delta) = last zg.
Proof.
  destruct (last zg) as [m|] eqn:Hl.
  - apply delete_from_last; [done|].
    intros H. apply to_eliminate_elem in H as (j & a & b & Hj & _ & Hb & _).
    apply lookup_lt_Some in Hb. simpl in Hj. lia.
  - apply last_None in Hl. by subst.
Qed.

End PruneFacts.

Section LinspaceFacts.

Local Open Scope f64_scope.

(** *** [onp.linspace] *)

Lemma zero_or_nan_mul c x : zero_or_nan c -> zero_or_nan (c * x).
Proof.
  intros [H|H]; destruct c; try discriminate; destruct x; simpl;
    unfold zero_or_nan; simpl; auto.
Qed.

Lemma zero_or_nan_div c x : zero_or_nan c -> zero_or_nan (c / x).
Proof.
  intros [H|H]; destruct c; try discriminate; destruct x; simpl;
    unfold zero_or_nan; simpl; auto.
Qed.

Lemma zero_or_nan_add c start :
  zero_or_nan c -> is_zero start = false ->
  c + start = start \/ F64.is_nan (c + start) = true.
Proof.
  intros [H|H] Hs; destruct c; try discriminate; destruct start;
    try discriminate; simpl; auto.
Qed.

Lemma linspace_head start stop N :
  (1 <= N)%nat -> is_zero start = false ->
  exists y0, head (Np.linspace start stop N) = Some y0
             /\ (y0 = start \/ F64.is_nan y0 = true).
Proof.
  intros HN Hs. destruct N as [|n]; [lia|].
  unfold Np.linspace.
  set (div := (Z.of_nat (S n) - 1)%Z). set (delta := stop - start).
  change (seq 0 (S n)) with (0%nat :: seq 1 n).
  set (rest := seq 1 n).
  assert (H0 : zero_or_nan (F64.of_Z (Z.of_nat 0))) by (left; reflexivity).
  assert (Hy : exists c r,
    zero_or_nan c /\
    (if (0 <? div)%Z
     then if delta / F64.of_Z div ==? F64.zero
          then map (fun v => v / F64.of_Z div * delta)
                 (map (fun i => F64.of_Z (Z.of_nat i)) (0%nat :: rest))
          else map (fun v => v * (delta / F64.of_Z div))
                 (map (fun i => F64.of_Z (Z.of_nat i)) (0%nat :: rest))
     else map (fun v => v * delta)
            (map (fun i => F64.of_Z (Z.of_nat i)) (0%nat :: rest)))
    = c :: r /\ length r = n).
  { destruct (0 <? div)%Z; [destruct (_ ==? _)|]; cbn [map];
      eexists _, _; (split; [|split; [reflexivity|]]);
      try (rewrite !length_map; subst rest; by rewrite length_seq).
    - apply zero_or_nan_mul, zero_or_nan_div, H0.
    - apply zero_or_nan_mul, H0.
    - apply zero_or_nan_mul, H0. }
  destruct Hy as (c & r & Hc & -> & Hr).
  cbn [map]. exists (c + start). split; [|by apply zero_or_nan_add].
  destruct (1 <? Z.of_nat (S n))%Z eqn:E; [|done].
  apply Z.ltb_lt in E. destruct n as [|n']; [lia|]. done.
Qed.

Lemma linspace_stop start stop N :
  (2 <= N)%nat -> stop ∈ Np.linspace start stop N.
Proof.
  intros HN. unfold Np.linspace.
  destruct (1 <? Z.of_nat N)%Z eqn:E; [|apply Z.ltb_ge in E; lia].
  apply elem_of_app. right. by apply list_elem_of_singleton.
Qed.

End LinspaceFacts.

(** *** The grid *)

Section GridFacts.

Local Open Scope f64_scope.

Variable Numsigma zcut : float.
Variable N : nat.
Variable gals : list galaxy.
Hypothesis HN : (2 <= N)%nat.
Hypothesis Hspan : samples_in_span Numsigma zcut N gals = true.

#[local] Abbreviation span := (within_span zcut).
#[local] Abbreviation grid_inv := (grid_invariant zcut).

Lemma span_nonnan p : span p -> nonnan p.
Proof.
  unfold within_span, in_span. intros H. apply andb_true_iff in H as [H _].
  by apply F64_leb_nonnan in H as [_ H].
Qed.

Lemma span_all_nonnan l : Forall span l -> Forall nonnan l.
Proof. intros H. eapply Forall_impl; [exact H|]. apply span_nonnan. Qed.

Lemma span_lower p : span p -> le_rel F64.lit_1em6 p.
Proof. unfold within_span, in_span. by intros [H _]%andb_true_iff. Qed.

Lemma span_upper p : span p -> le_rel p zcut.
Proof. unfold within_span, in_span. by intros [_ H]%andb_true_iff. Qed.

Lemma span_base : Forall span (Np.linspace F64.lit_1em6 zcut N).
Proof.
  unfold samples_in_span in Hspan. apply andb_true_iff in Hspan as [H _].
  apply Forall_forall. intros p Hp. rewrite forallb_forall in H.
  apply H. by apply list_elem_of_In.
Qed.

Lemma span_window g :
  g ∈ gals -> in_range Numsigma zcut g = true ->
  Forall span (Np.linspace (fst (window Numsigma zcut g))
                           (snd (window Numsigma zcut g)) N).
Proof.
  intros Hg Hr.
  unfold samples_in_span in Hspan. apply andb_true_iff in Hspan as [_ H].
  rewrite forallb_forall in H. apply list_elem_of_In in Hg.
  specialize (H g Hg). rewrite Hr in H. simpl in H.
  apply Forall_forall. intros p Hp. rewrite forallb_forall in H.
  apply H. by apply list_elem_of_In.
Qed.

Lemma zcut_nonzero : is_zero zcut = false.
Proof.
  pose proof span_base as H. rewrite Forall_forall in H.
  specialize (H zcut (linspace_stop _ _ _ HN)).
  apply span_lower in H. by destruct zcut.
Qed.

Lemma grid_inv_base : grid_inv (Np.linspace F64.lit_1em6 zcut N).
Proof.
  split; [apply span_base|]. split; [|by apply linspace_stop].
  destruct (linspace_head F64.lit_1em6 zcut N) as (y0 & Hh & Hy);
    [lia|done|].
  assert (Hin : y0 ∈ Np.linspace F64.lit_1em6 zcut N).
  { destruct (Np.linspace F64.lit_1em6 zcut N); [discriminate|].
    injection Hh as ->. apply elem_of_cons. by left. }
  destruct Hy as [->|Hy]; [done|].
  pose proof span_base as H. rewrite Forall_forall in H.
  apply H, span_nonnan in Hin. unfold nonnan in Hin. congruence.
Qed.

Lemma sorted_head_lower M :
  StronglySorted le_rel M -> Forall span M -> F64.lit_1em6 ∈ M ->
  head M = Some F64.lit_1em6.
Proof.
  intros Hs Hsp Hin. destruct M as [|h t]; [by apply elem_of_nil in Hin|].
  simpl. f_equal. symmetry.
  apply elem_of_cons in Hin as [->|Hin]; [done|].
  inversion Hs as [|? ? _ Hle]; subst.
  inversion Hsp as [|? ? Hh _]; subst.
  rewrite Forall_forall in Hle.
  apply SFcompare_Eq_eq; [|done].
  apply F64_leb_antisym; [by apply span_lower|by apply Hle].
Qed.

Lemma sorted_last_upper M :
  StronglySorted le_rel M -> Forall span M -> zcut ∈ M ->
  last M = Some zcut.
Proof.
  intros Hs Hsp Hin.
  destruct (last M) as [m|] eqn:Hl.
  2:{ apply last_None in Hl. subst. by apply elem_of_nil in Hin. }
  f_equal. symmetry.
  pose proof (strongly_sorted_last_max _ _ Hs (span_all_nonnan _ Hsp) Hl)
    as Hmax.
  rewrite Forall_forall in Hmax, Hsp.
  apply SFcompare_Eq_eq; [|apply zcut_nonzero].
  apply F64_leb_antisym; [by apply Hmax|].
  apply span_upper, Hsp.
  apply list_elem_of_lookup. exists (pred (length M)).
  by rewrite <- last_lookup.
Qed.

Lemma head_elem {A : Type} (l : list A) x : head l = Some x -> x ∈ l.
Proof. destruct l; [done|]. intros [= ->]. apply elem_of_cons. by left. Qed.

Lemma last_elem {A : Type} (l : list A) x : last l = Some x -> x ∈ l.
Proof.
  rewrite last_lookup. intros H. by eapply list_elem_of_lookup_2.
Qed.

Lemma grid_inv_merge S g :
  g ∈ gals -> in_range Numsigma zcut g = true ->
  grid_inv S -> grid_inv (merge_galaxy Numsigma zcut N S g).
Proof.
  intros Hg Hr (Hsp & Hlo & Hhi).
  pose proof (span_window g Hg Hr) as Hw.
  unfold merge_galaxy. destruct (window Numsigma zcut g) as [zmin zmax].
  simpl in Hw.
  set (M := Np.sort (S ++ Np.linspace zmin zmax N)).
  assert (HM : Forall span M).
  { apply Forall_forall. intros p Hp. subst M. rewrite sort_elem in Hp.
    apply elem_of_app in Hp as [Hp|Hp].
    - rewrite Forall_forall in Hsp. by apply Hsp.
    - rewrite Forall_forall in Hw. by apply Hw. }
  assert (Hsorted : StronglySorted le_rel M).
  { apply sort_strongly, span_all_nonnan.
    apply Forall_app. by split. }
  assert (HloM : F64.lit_1em6 ∈ M).
  { subst M. rewrite sort_elem. apply elem_of_app. by left. }
  assert (HhiM : zcut ∈ M).
  { subst M. rewrite sort_elem. apply elem_of_app. by left. }
  split; [|split].
  - apply Forall_forall. intros p Hp. apply prune_elem in Hp.
    rewrite Forall_forall in HM. by apply HM.
  - apply head_elem. rewrite prune_head. by apply sorted_head_lower.
  - apply last_elem. rewrite prune_last. by apply sorted_last_upper.
Qed.

Lemma grid_inv_merged ordered :
  Forall (fun g => g ∈ gals /\ in_range Numsigma zcut g = true) ordered ->
  grid_inv (merged_grid Numsigma zcut N ordered).
Proof.
  unfold merged_grid. generalize grid_inv_base.
  generalize (Np.linspace F64.lit_1em6 zcut N).
  intros S HS Hord. revert S HS.
  induction Hord as [|g ordered [Hg Hr] _ IH]; intros S HS; simpl; [done|].
  apply IH. by apply grid_inv_merge.
Qed.

Lemma unique_of_grid_inv S :
  grid_inv S ->
  strictly_increasing (Np.unique S)
  /\ head (Np.unique S) = Some F64.lit_1em6
  /\ last (Np.unique S) = Some zcut.
Proof.
  intros (Hsp & Hlo & Hhi). unfold Np.unique.
  set (M := Np.sort S).
  assert (HM : Forall span M).
  { apply Forall_forall. intros p Hp. subst M. rewrite sort_elem in Hp.
    rewrite Forall_forall in Hsp. by apply Hsp. }
  assert (Hsorted : StronglySorted le_rel M)
    by by apply sort_strongly, span_all_nonnan.
  assert (Hhead : head M = Some F64.lit_1em6).
  { apply sorted_head_lower; [done|done|]. subst M. by rewrite sort_elem. }
  assert (Hlast : last M = Some zcut).
  { apply sorted_last_upper; [done|done|]. subst M. by rewrite sort_elem. }
  split; [|split].
  - apply dedup_sorted_increasing; [done|by apply span_all_nonnan].
  - destruct M; [discriminate|]. exact Hhead.
  - destruct M as [|x M']; [discriminate|]. unfold Np.dedup_sorted.
    destruct (keep_changes_last M' x x zcut) as (y & Hy & Hc).
    + apply SFcompare_refl. apply span_nonnan.
      by inversion HM.
    + by apply span_all_nonnan.
    + done.
    + rewrite Hy. f_equal. symmetry.
      apply SFcompare_Eq_eq; [|apply zcut_nonzero].
      apply SFcompare_antisym in Hc. exact Hc.
Qed.

End GridFacts.

Lemma in_range_selected Numsigma zcut gals idx' g :
  g ∈ Np.index (Np.index gals (idx_in_range Numsigma zcut gals)) idx' ->
  g ∈ gals /\ in_range Numsigma zcut g = true.
Proof.
  intros H. apply index_elem_of in H.
  apply index_elem in H as (i & Hi & Hg).
  unfold idx_in_range, Np.where_ in Hi.
  apply where_from_elem in Hi as (k & -> & Hk). simpl in Hg.
  split; [by eapply list_elem_of_lookup_2|].
  rewrite list_lookup_fmap, Hg in Hk. by injection Hk.
Qed.




(** ** Checkpoints *)

Lemma safe_inv I plan f : safe I plan f -> I f.
Proof. destruct plan; simpl; tauto. Qed.

Lemma safe_prefix I plan f n :
  safe I plan f -> I (fst (exec_interrupted n plan f)).
Proof.
  unfold exec_interrupted. revert f n.
  induction plan as [|s plan IH]; intros f n H.
  - rewrite take_nil. simpl. by apply safe_inv in H.
  - destruct n as [|n]; simpl; [by apply safe_inv in H|].
    destruct H as [HI H].
    destruct (exec_step s f) as [f'|e]; simpl; [by apply IH|done].
Qed.

Lemma safe_app I p1 p2 f :
  safe I p1 f ->
  (forall f1, exec p1 f = (f1, None) -> safe I p2 f1) ->
  safe I (p1 ++ p2) f.
Proof.
  revert f. induction p1 as [|s p1 IH]; intros f H1 H2; simpl.
  - apply H2. reflexivity.
  - destruct H1 as [HI H1]. split; [done|].
    destruct (exec_step s f) as [f'|e] eqn:E; [|done].
    apply IH; [done|]. intros f1 Hf1. apply H2. simpl. by rewrite E.
Qed.

Lemma safe_throw I e plan f : I f -> safe I (Throw e :: plan) f.
Proof. intros H. simpl. done. Qed.

Lemma vals_pixel_inj i j : vals_pixel i = vals_pixel j -> i = j.
Proof.
  unfold vals_pixel. intros H.
  apply (inj (String.app "vals_pixel_")) in H. by apply (inj pretty) in H.
Qed.

Lemma vals_pixel_not_grid j :
  vals_pixel j <> "z_grid" /\ vals_pixel j <> "pixel_grid".
Proof. unfold vals_pixel. split; simpl; discriminate. Qed.

Lemma benign_same_view s f f' :
  benign s -> is_Some (groups f !! interp_group) ->
  exec_step s f = Ok f' -> same_view f f'.
Proof.
  intros Hb [gr Hgr] Hs. destruct s; simpl in Hb; try done.
  - destruct Hb as [-> Hk]. simpl in Hs. rewrite Hgr in Hs.
    injection Hs as <-. eexists gr, _. split; [done|].
    split; [simpl; apply lookup_insert_eq|]. split; [|done].
    unfold checkpoint_of. simpl. by rewrite lookup_insert_ne.
  - destruct Hb as [-> Hn]. simpl in Hs. rewrite Hgr in Hs.
    destruct (dsets gr !! name); [discriminate|]. injection Hs as <-.
    eexists gr, _. split; [done|].
    split; [simpl; apply lookup_insert_eq|]. split; [done|].
    intros j. unfold has_column. simpl. by rewrite lookup_insert_ne.
  - injection Hs as <-. exists gr, gr. done.
Qed.

Lemma same_view_safe f f' :
  same_view f f' -> interp_checkpoint_safe f -> interp_checkpoint_safe f'.
Proof.
  intros (gr & gr' & Hg & Hg' & Hc & Hv) HI gr0 Hgr0.
  rewrite Hg' in Hgr0. injection Hgr0 as <-.
  specialize (HI gr Hg). rewrite Hc.
  destruct (checkpoint_of gr) as [c|].
  - destruct HI as (H0 & Hlt & Hgt). split; [done|].
    split; intros j Hj; rewrite Hv; auto.
  - intros j. rewrite Hv. auto.
Qed.

Lemma same_view_loop_pre c f f' :
  same_view f f' -> loop_pre c f -> loop_pre c f'.
Proof.
  intros Hv (HI & Hc & gr & Hg & Hlt & Hgt).
  split; [by eapply same_view_safe|]. split; [done|].
  destruct Hv as (gr0 & gr' & Hg0 & Hg' & _ & Hv).
  rewrite Hg in Hg0. injection Hg0 as <-.
  exists gr'. split; [done|]. split; intros j Hj; rewrite Hv; auto.
Qed.

Lemma safe_benign p rest c f :
  Forall benign p -> loop_pre c f ->
  (forall f', loop_pre c f' -> safe interp_checkpoint_safe rest f') ->
  safe interp_checkpoint_safe (p ++ rest) f.
Proof.
  intros Hp. revert f. induction Hp as [|s p Hs _ IH]; intros f Hpre Hrest.
  - by apply Hrest.
  - simpl. split; [apply Hpre|].
    destruct (exec_step s f) as [f'|e] eqn:E; [|done].
    apply IH; [|done]. eapply same_view_loop_pre; [|done].
    eapply benign_same_view; [done| |done].
    destruct Hpre as (_ & _ & gr & Hg & _). by exists gr.
Qed.

Lemma exec_SetAttr f g gr key v :
  groups f !! g = Some gr ->
  exec_step (SetAttr g key v) f
  = Ok (set_groups f
          (<[g := {| attrs := <[key := v]> (attrs gr); dsets := dsets gr |}]>
             (groups f))).
Proof. intros H. simpl. by rewrite H. Qed.

Lemma exec_CreateDataset f g gr name data :
  groups f !! g = Some gr -> dsets gr !! name = None ->
  exec_step (CreateDataset g name data) f
  = Ok (set_groups f
          (<[g := {| attrs := attrs gr;
                     dsets := <[name := data]> (dsets gr) |}]>
             (groups f))).
Proof. intros H1 H2. simpl. by rewrite H1, H2. Qed.

Lemma exec_CreateDataset_exists f g gr name data :
  groups f !! g = Some gr -> is_Some (dsets gr !! name) ->
  exec_step (CreateDataset g name data) f = Raise (exists_error "dataset").
Proof. intros H1 [d H2]. simpl. by rewrite H1, H2. Qed.

Section CheckpointFacts.
Context `{ML : MathLib} `{CO : Collaborators}.

Lemma interp_loop_safe f0 cosmo_ref epsilon Numsigma ptype sel z_grid
    rest len c f :
  (forall c' f', loop_pre c' f' -> safe interp_checkpoint_safe rest f') ->
  loop_pre c f ->
  safe interp_checkpoint_safe
    (flat_map (interp_pixel_steps f0 cosmo_ref epsilon Numsigma ptype sel
                                  z_grid)
              (seqZ c (Z.of_nat len)) ++ rest) f.
Proof.
  intros Hrest. revert c f. induction len as [|len IH]; intros c f Hpre.
  - simpl. by eapply Hrest.
  - rewrite seqZ_cons by lia. cbn [flat_map].
    replace (Z.pred (Z.of_nat (S len))) with (Z.of_nat len) by lia.
    unfold interp_pixel_steps at 1. cbn [app].
    destruct Hpre as (HI & Hc & gr & Hg & Hlt & Hgt).
    cbn [safe]. split; [done|].
    rewrite (exec_SetAttr f _ gr _ _ Hg).
    set (gr1 := {| attrs := <["sky_checkpoint" := AInt c]> (attrs gr);
                   dsets := dsets gr |}).
    set (f1 := set_groups f (<[interp_group := gr1]> (groups f))).
    assert (Hg1 : groups f1 !! interp_group = Some gr1)
      by apply lookup_insert_eq.
    assert (Hc1 : checkpoint_of gr1 = Some c).
    { unfold checkpoint_of, gr1. simpl. by rewrite lookup_insert_eq. }
    assert (HI1 : interp_checkpoint_safe f1).
    { intros gr' Hgr'. rewrite Hg1 in Hgr'. injection Hgr' as <-.
      rewrite Hc1. done. }
    destruct (pixel_column f0 cosmo_ref epsilon Numsigma ptype sel z_grid c)
      as [col|e]; cbn [app]; [|by apply safe_throw].
    cbn [safe]. split; [done|].
    destruct (dsets gr1 !! vals_pixel c) eqn:Hcol.
    { by rewrite (exec_CreateDataset_exists f1 _ gr1 _ _ Hg1). }
    rewrite (exec_CreateDataset f1 _ gr1 _ _ Hg1 Hcol).
    apply IH.
    set (gr2 := {| attrs := attrs gr1;
                   dsets := <[vals_pixel c := FloatArr col]> (dsets gr1) |}).
    assert (Hhas : forall j, has_column gr2 j <-> j = c \/ has_column gr j).
    { intros j. unfold has_column, gr2. simpl.
      destruct (decide (j = c)) as [->|Hne].
      - rewrite lookup_insert_eq. split; [by left|by eexists].
      - rewrite lookup_insert_ne by (intros E; by apply vals_pixel_inj in E).
        split; [by right|]. by intros [?|?]. }
    assert (Hlt2 : forall j, 0 <= j < Z.succ c -> has_column gr2 j).
    { intros j Hj. apply Hhas. destruct (decide (j = c)); [by left|].
      right. apply Hlt. lia. }
    assert (Hgt2 : forall j, c < j -> ~ has_column gr2 j).
    { intros j Hj. rewrite Hhas. intros [->|H]; [lia|]. by eapply Hgt. }
    split; [|split; [lia|]].
    + intros gr' Hgr'. simpl in Hgr'. rewrite lookup_insert_eq in Hgr'.
      injection Hgr' as <-.
      change (checkpoint_of gr2) with (checkpoint_of gr1). rewrite Hc1.
      split; [done|]. split; [intros j Hj; apply Hlt2; lia|done].
    + exists gr2. split; [simpl; apply lookup_insert_eq|].
      split; [done|]. intros j Hj. apply Hgt2. lia.
Qed.

Lemma close_safe c f :
  loop_pre c f -> safe interp_checkpoint_safe [CloseFile] f.
Proof. intros (HI & _). simpl. done. Qed.

Lemma arange_seqZ c n : arange c n = seqZ c (Z.of_nat (Z.to_nat (n - c))).
Proof. unfold arange, seqZ. by rewrite Nat2Z.id. Qed.

(** The part of the build after the group was opened, from the pixel [c]. *)
Lemma interp_body_safe f0 cosmo_ref epsilon Nintegration Numsigma zcut ptype
    c f :
  loop_pre c f ->
  safe interp_checkpoint_safe
    match build_z_grid Numsigma (default (cosmo_zmax cosmo_ref) zcut)
                       cosmo_ref Nintegration (galaxies f0) with
    | Raise e => [Throw e]
    | Ok (idx, z_grid) =>
        (if (c =? 0)%Z then
           [CreateDataset interp_group "z_grid" (FloatArr z_grid);
            CreateDataset interp_group "pixel_grid"
              (IntArr (arange 0 (npixels f0)))]
         else [])
        ++ interp_loop f0 cosmo_ref epsilon Numsigma ptype
                       (Np.index (galaxies f0) idx) z_grid c
        ++ [CloseFile]
    end f.
Proof.
  intros Hpre.
  destruct (build_z_grid _ _ _ _ _) as [[idx z_grid]|e];
    [|apply safe_throw, Hpre].
  apply (safe_benign _ _ c); [|done|].
  - destruct (c =? 0)%Z; [|constructor].
    repeat constructor; intros j E; symmetry in E;
      by apply (vals_pixel_not_grid j) in E.
  - intros f' Hpre'. unfold interp_loop. rewrite arange_seqZ.
    apply interp_loop_safe; [|done]. apply close_safe.
Qed.

Lemma interp_plan_safe f cosmo_ref epsilon Nintegration Numsigma zcut ptype :
  interp_checkpoint_safe f ->
  safe interp_checkpoint_safe
    (calc_dN_by_dzdOmega_interpolant
       f cosmo_ref epsilon Nintegration Numsigma zcut ptype) f.
Proof.
  intros HI. unfold calc_dN_by_dzdOmega_interpolant, interp_open.
  destruct (groups f !! interp_group) as [gr|] eqn:Hg.
  - cbn [app]. unfold read_checkpoint.
    pose proof (HI gr Hg) as HI'. unfold checkpoint_of in HI'.
    destruct (attrs gr !! "sky_checkpoint") as [[c| | |]|];
      try (by apply safe_throw).
    apply interp_body_safe. destruct HI' as (Hc & Hlt & Hgt).
    split; [done|]. split; [done|]. by exists gr.
  - cbn [app safe]. split; [done|]. simpl exec_step. rewrite Hg.
    set (f1 := set_groups f (<[interp_group := empty_group]> (groups f))).
    assert (Hpre : loop_pre 0 f1).
    { assert (Hg1 : groups f1 !! interp_group = Some empty_group)
        by apply lookup_insert_eq.
      split; [|split; [done|]].
      - intros gr' Hgr'. rewrite Hg1 in Hgr'. injection Hgr' as <-.
        unfold checkpoint_of, empty_group. simpl. rewrite lookup_empty.
        intros j [d Hd]. simpl in Hd. by rewrite lookup_empty in Hd.
      - exists empty_group. split; [done|].
        split; [intros j Hj; lia|]. intros j _ [d Hd].
        simpl in Hd. by rewrite lookup_empty in Hd. }
    apply (safe_benign
             [SetAttr interp_group "epsilon" (AFloat epsilon);
              SetAttr interp_group "ptype" (AStr ptype);
              SetAttr interp_group "Nintegration" (AInt Nintegration);
              SetAttr interp_group "Numsigma"
                (AFloat (effective_Numsigma Numsigma ptype));
              SetAttr interp_group "zcut" (attr_of_zcut zcut)] _ 0 f1);
      [|done|].
    + repeat constructor; discriminate.
    + intros f' Hpre'. by apply interp_body_safe.
Qed.

Lemma interp_reachable_safe f :
  interp_reachable f -> interp_checkpoint_safe f.
Proof.
  induction 1 as [f Hf|f cosmo_ref epsilon Nintegration Numsigma zcut ptype
                    n _ IH].
  - intros gr Hgr. congruence.
  - apply safe_prefix. by apply interp_plan_safe.
Qed.

End CheckpointFacts.

Lemma exec_step_shape s f f' :
  exec_step s f = Ok f' -> nside f' = nside f /\ npixels f' = npixels f.
Proof.
  destruct s; intros H; simpl in H.
  - destruct (groups f !! g); try discriminate. by injection H as <-.
  - destruct (groups f !! g); try discriminate. by injection H as <-.
  - destruct (groups f !! g); try discriminate.
    destruct (dsets _ !! _); try discriminate. by injection H as <-.
  - destruct (groups f !! g); try discriminate.
    destruct (dsets _ !! _) as [[l|]|]; try discriminate.
    destruct (_ && _); try discriminate. by injection H as <-.
  - destruct (groups f !! mthr_group); try discriminate.
    destruct (dsets _ !! _) as [[l|]|]; try discriminate.
    destruct (castmthr l (galaxies f)); try discriminate.
    simpl in H. by injection H as <-.
  - by injection H as <-.
  - discriminate.
  - by injection H as <-.
Qed.

Lemma exec_shape plan f :
  nside (fst (exec plan f)) = nside f
  /\ npixels (fst (exec plan f)) = npixels f.
Proof.
  revert f. induction plan as [|s plan IH]; intros f; simpl; [done|].
  destruct (exec_step s f) as [f'|e] eqn:E; simpl; [|done].
  destruct (exec_step_shape _ _ _ E) as [<- <-]. apply IH.
Qed.

Section MthrFacts.
Context `{ML : MathLib} `{CO : Collaborators}.

Variable f0 : h5file.
Variable q : float.
Variable nside_mthr : option Z.

#[local] Abbreviation Inv := (mthr_checkpoint_safe f0 q nside_mthr).
#[local] Abbreviation written := (threshold_written f0 q nside_mthr).
#[local] Abbreviation same_catalog := (same_catalog_as f0).
#[local] Abbreviation mthr_loop_pre := (mthr_loop_invariant f0 q nside_mthr).

Lemma same_groups_safe f f' : groups f' = groups f -> Inv f -> Inv f'.
Proof. intros E HI gr c. rewrite E. apply HI. Qed.

Lemma filter_tail_safe f :
  Inv f -> safe Inv [FilterCatalog; SetNgal] f.
Proof.
  intros HI. cbn [safe]. split; [done|].
  destruct (exec_step FilterCatalog f) as [f1|e] eqn:E; [|done].
  assert (E1 : groups f1 = groups f).
  { simpl in E. destruct (groups f !! mthr_group) as [gr|]; [|discriminate].
    destruct (dsets gr !! "mthr_sky") as [[sky|]|]; try discriminate.
    destruct (castmthr sky (galaxies f)); [|discriminate].
    simpl in E. by injection E as <-. }
  split; [by eapply same_groups_safe|]. simpl. split; [|done].
  by eapply same_groups_safe.
Qed.

Lemma mthr_loop_safe f len c f1 :
  same_catalog f ->
  ((0 < len)%nat -> c + Z.of_nat len <= npixels f0) ->
  mthr_loop_pre c f1 ->
  safe Inv
    (flat_map (mthr_pixel_steps f (default (nside f) nside_mthr) (Ok q))
              (seqZ c (Z.of_nat len)) ++ [FilterCatalog; SetNgal]) f1.
Proof.
  intros (Hgal & Hns & Hnp). revert c f1.
  induction len as [|len IH]; intros c f1 Hlen Hpre.
  - simpl. apply filter_tail_safe, Hpre.
  - rewrite seqZ_cons by lia. cbn [flat_map].
    replace (Z.pred (Z.of_nat (S len))) with (Z.of_nat len) by lia.
    specialize (Hlen ltac:(lia)).
    destruct Hpre as (HI & Hc & gr & sky & Hg & Hq & Hsky & Hlen_sky
                      & Hlt & Hgt).
    unfold mthr_pixel_steps at 1. cbn [app safe]. split; [done|].
    rewrite (exec_SetAttr f1 _ gr _ _ Hg).
    set (gr1 := {| attrs := <["sky_checkpoint" := AInt c]> (attrs gr);
                   dsets := dsets gr |}).
    set (f2 := set_groups f1 (<[mthr_group := gr1]> (groups f1))).
    assert (Hg1 : groups f2 !! mthr_group = Some gr1)
      by apply lookup_insert_eq.
    assert (Hc1 : checkpoint_of gr1 = Some c).
    { unfold checkpoint_of, gr1. simpl. by rewrite lookup_insert_eq. }
    assert (Hq1 : attrs gr1 !! "mthr_percentile" = Some (AFloat q)).
    { unfold gr1. simpl. by rewrite lookup_insert_ne. }
    assert (HI2 : Inv f2).
    { intros gr' c' Hgr' Hc'. rewrite Hg1 in Hgr'. injection Hgr' as <-.
      rewrite Hc1 in Hc'. injection Hc' as <-.
      split; [done|]. split; [done|]. exists sky. done. }
    assert (Htarget :
      mthr_pixel_galaxies f (default (nside f) nside_mthr) c
      = mthr_pixel_galaxies f0 (default (nside f0) nside_mthr) c).
    { unfold mthr_pixel_galaxies. by rewrite Hgal, Hns. }
    destruct (mthr_pixel_galaxies f (default (nside f) nside_mthr) c)
      as [|i0 ind] eqn:Hind.
    + (* no galaxy in the pixel: nothing is written *)
      cbn [app]. apply IH; [lia|].
      split; [done|]. split; [lia|]. exists gr1, sky.
      split; [done|]. split; [done|]. split; [done|]. split; [done|].
      split; [|intros j Hj; apply Hgt; lia].
      intros j Hj. destruct (decide (j = c)) as [->|Hne]; [|apply Hlt; lia].
      unfold threshold_written, mthr_target. by rewrite <- Htarget.
    + cbn [app safe]. split; [done|].
      set (v := np_percentile (Np.index (map g_m (galaxies f)) (i0 :: ind)) q).
      assert (Hstep :
        exec_step (SetItem mthr_group "mthr_sky" c v) f2
        = Ok (set_groups f2
                (<[mthr_group :=
                     {| attrs := attrs gr1;
                        dsets := <["mthr_sky" :=
                                     FloatArr (<[Z.to_nat c := v]> sky)]>
                                   (dsets gr1) |}]> (groups f2)))).
      { simpl. rewrite lookup_insert_eq. simpl. rewrite Hsky.
        destruct (Z.leb_spec 0 c); [|lia].
        destruct (Z.ltb_spec c (Z.of_nat (length sky))); [done|lia]. }
      rewrite Hstep.
      apply IH; [lia|].
      set (sky' := <[Z.to_nat c := v]> sky).
      set (gr2 := {| attrs := attrs gr1;
                     dsets := <["mthr_sky" := FloatArr sky']> (dsets gr1) |}).
      assert (Hlt' : forall j, 0 <= j < c -> written sky' j).
      { intros j Hj. specialize (Hlt j Hj). unfold threshold_written in *.
        destruct (mthr_target f0 q nside_mthr j); [|done].
        unfold sky'. rewrite list_lookup_insert_ne by lia. done. }
      assert (Hgt' : forall j, c < j < npixels f0 ->
                               sky' !! Z.to_nat j = Some LOWERL).
      { intros j Hj. unfold sky'. rewrite list_lookup_insert_ne by lia.
        by apply Hgt. }
      assert (Hc' : written sky' c).
      { unfold threshold_written, mthr_target. rewrite <- Htarget.
        unfold sky'. rewrite list_lookup_insert_eq by lia.
        unfold v. by rewrite Hgal. }
      assert (Hlen' : length sky' = Z.to_nat (npixels f0)).
      { unfold sky'. by rewrite length_insert. }
      split; [|split; [lia|]].
      * intros gr' c' Hgr' Hcc. simpl in Hgr'.
        rewrite lookup_insert_eq in Hgr'. injection Hgr' as <-.
        change (checkpoint_of gr2) with (checkpoint_of gr1) in Hcc.
        rewrite Hc1 in Hcc. injection Hcc as <-.
        split; [done|]. split; [done|]. exists sky'.
        split; [simpl; apply lookup_insert_eq|]. done.
      * exists gr2, sky'. split; [simpl; apply lookup_insert_eq|].
        split; [done|]. split; [simpl; apply lookup_insert_eq|].
        split; [done|]. split; [|intros j Hj; apply Hgt'; lia].
        intros j Hj. destruct (decide (j = c)) as [->|Hne]; [done|].
        apply Hlt'. lia.
Qed.

Lemma no_checkpoint_safe f gr :
  groups f !! mthr_group = Some gr -> checkpoint_of gr = None -> Inv f.
Proof. intros Hg Hc gr' c Hg' Hc'. congruence. Qed.

Lemma checkpoint_of_read gr c :
  read_checkpoint gr = Ok c <-> checkpoint_of gr = Some c.
Proof.
  unfold read_checkpoint, checkpoint_of.
  destruct (attrs gr !! "sky_checkpoint") as [[| | |]|]; split;
    intros E; try discriminate; by injection E as <-.
Qed.

Lemma mthr_plan_safe f :
  same_catalog f -> Inv f ->
  safe Inv (calculate_mthr f (Percentile q) nside_mthr) f.
Proof.
  intros Hsame HI. unfold calculate_mthr, mthr_open.
  pose proof Hsame as (Hgal & Hns & Hnp).
  destruct (groups f !! mthr_group) as [gr|] eqn:Hg.
  - cbn [app].
    destruct (read_checkpoint gr) as [c|e] eqn:Hc; [|by apply safe_throw].
    apply checkpoint_of_read in Hc.
    destruct (HI gr c Hg Hc) as (H0 & Hq & sky & Hsky & Hlen & Hlt & Hgt).
    rewrite Hq. simpl percentile_of_attr.
    unfold mthr_loop. rewrite arange_seqZ.
    apply mthr_loop_safe; [done|rewrite Hnp; lia|].
    split; [done|]. split; [done|]. exists gr, sky. done.
  - cbn [app safe]. split; [done|]. simpl (exec_step (CreateGroup _) _).
    rewrite Hg.
    set (f1 := set_groups f (<[mthr_group := empty_group]> (groups f))).
    assert (Hg1 : groups f1 !! mthr_group = Some empty_group)
      by apply lookup_insert_eq.
    split; [by eapply no_checkpoint_safe|].
    rewrite (exec_SetAttr f1 _ _ _ _ Hg1).
    set (gr2 := {| attrs := <["mthr_percentile" := AFloat q]>
                              (attrs empty_group);
                   dsets := dsets empty_group |}).
    set (f2 := set_groups f1 (<[mthr_group := gr2]> (groups f1))).
    assert (Hg2 : groups f2 !! mthr_group = Some gr2)
      by apply lookup_insert_eq.
    split; [by eapply no_checkpoint_safe|].
    rewrite (exec_SetAttr f2 _ _ _ _ Hg2).
    set (gr3 := {| attrs := <["nside_mthr" :=
                                AInt (default (nside f) nside_mthr)]>
                              (attrs gr2);
                   dsets := dsets gr2 |}).
    set (f3 := set_groups f2 (<[mthr_group := gr3]> (groups f2))).
    assert (Hg3 : groups f3 !! mthr_group = Some gr3)
      by apply lookup_insert_eq.
    split; [by eapply no_checkpoint_safe|].
    rewrite (exec_CreateDataset f3 _ gr3 _ _ Hg3) by done.
    set (sky := replicate (Z.to_nat (npixels f)) LOWERL).
    set (gr4 := {| attrs := attrs gr3;
                   dsets := <["mthr_sky" := FloatArr sky]> (dsets gr3) |}).
    set (f4 := set_groups f3 (<[mthr_group := gr4]> (groups f3))).
    assert (Hg4 : groups f4 !! mthr_group = Some gr4)
      by apply lookup_insert_eq.
    simpl percentile_of_attr.
    unfold mthr_loop. rewrite arange_seqZ.
    apply mthr_loop_safe; [done|rewrite Hnp; lia|].
    split; [by eapply no_checkpoint_safe|]. split; [done|].
    exists gr4, sky. split; [done|]. split; [done|].
    split; [done|].
    split; [unfold sky; by rewrite length_replicate, Hnp|].
    split; [intros j Hj; lia|].
    intros j Hj. unfold sky. apply lookup_replicate_2. lia.
Qed.

Lemma mthr_reachable_safe f :
  groups f0 !! mthr_group = None ->
  mthr_reachable f0 q nside_mthr f -> same_catalog f /\ Inv f.
Proof.
  intros Hfresh. induction 1 as [|f n _ [Hsame HI] Hgal].
  - split; [done|]. intros gr c Hg. congruence.
  - split.
    + split; [done|]. unfold exec_interrupted.
      destruct (exec_shape
                  (take n (calculate_mthr f (Percentile q) nside_mthr)) f)
        as [-> ->].
      by destruct Hsame as (_ & ? & ?).
    + apply safe_prefix. by apply mthr_plan_safe.
Qed.

End MthrFacts.

Section Checkpoints.
Context `{ML : MathLib} `{CO : Collaborators}.


End Checkpoints.


(** ** Resuming the interpolant build *)

(** C2, as the code has it.  The first run on the catalog of one galaxy
    completes.  When the process ends right after the column of the pixel 0
    or of the pixel 1 was written, the run that resumes raises the error of
    a dataset that exists: the checkpoint still names the pixel whose column
    was written, and the run creates [z_grid] or the column again.  When
    the process ends after the checkpoint moved to the pixel 1 and before
    the column of the pixel 1 was written, the run that resumes completes
    and leaves the file of the first run. *)
Theorem resume_after_column_write_raises :
  snd (exec (Sample.build Sample.one_galaxy) Sample.one_galaxy) = None
  /\ snd (exec (Sample.build (Sample.interrupted 10)) (Sample.interrupted 10))
     = Some (ValueError "Unable to create dataset (name already exists)")
  /\ snd (exec (Sample.build (Sample.interrupted 12)) (Sample.interrupted 12))
     = Some (ValueError "Unable to create dataset (name already exists)")
  /\ exec (Sample.build (Sample.interrupted 11)) (Sample.interrupted 11)
     = exec (Sample.build Sample.one_galaxy) Sample.one_galaxy.
Proof.
  split; [|split; [|split]]; vm_compute; reflexivity.
Qed.
